(** * sudsolve: the candidate-elimination solver of [solver.py]

    A shallow embedding of [solver.py] and the properties of its solve
    loop.  The board is a numpy array of shape (9, 9) that holds text
    tokens: ["X"] for an unknown cell, any other token for a clue.  This is
    what [create_board] yields for a file in which every column has an
    unknown cell (or another token that is no number); a column without one
    is read as integers, which compare unequal to every candidate, and such
    boards are outside this model.  The dictionary [unknowns] is a Python
    [dict]: keys in insertion order, values replaced in place.  Reading the
    CSV file is not modelled; [pretty_print_board] is modelled by the lines
    it prints. *)

From Stdlib Require Import ZArith Ascii String DecimalString.
From stdpp Require Import base decidable option strings numbers list.

Local Open Scope string_scope.
Local Open Scope list_scope.
Local Open Scope nat_scope.

(** ** Data *)

Abbreviation cell := string (only parsing).
Abbreviation board := (list (list string)) (only parsing).
Abbreviation key := (nat * nat)%type (only parsing).
Abbreviation unknowns := (list (nat * nat * list string)) (only parsing).
Abbreviation state := (list (list string) * list (nat * nat * list string))%type
  (only parsing).

(** The shape of the array.  Every index expression of [solver.py] is built
    from [range(9)], [range(3)] and the keys of [unknowns], so on this shape
    no access raises [IndexError]; the accessors below are total on lists
    and agree with numpy inside the shape. *)
Definition wf_board (b : board) : Prop :=
  length b = 9 ∧ Forall (λ row, length row = 9) b.

(** [board[i][j]] *)
Definition board_get (b : board) (i j : nat) : cell := (b !!! i) !!! j.

(** [board[i][j] = v], also written [board[key] = v] *)
Definition board_set (b : board) (i j : nat) (v : cell) : board :=
  alter (λ row, <[j := v]> row) i b.

(** ** The dictionary *)

(** [unknowns.get(k)] *)
Fixpoint dict_get (u : unknowns) (k : key) : option (list cell) :=
  match u with
  | [] => None
  | (k', v) :: u' => if decide (k' = k) then Some v else dict_get u' k
  end.

(** [unknowns.get(k, [])]; also [unknowns[k]], which the solver only
    evaluates at a key it is iterating over, where no [KeyError] arises. *)
Definition dict_item (u : unknowns) (k : key) : list cell :=
  default [] (dict_get u k).

(** [unknowns[k] = v]: the value is replaced in place, the order of the
    keys is kept; a new key goes to the end. *)
Fixpoint dict_set (u : unknowns) (k : key) (v : list cell) : unknowns :=
  match u with
  | [] => [(k, v)]
  | (k', v') :: u' =>
      if decide (k' = k) then (k, v) :: u' else (k', v') :: dict_set u' k v
  end.

(** The keys, in iteration order. *)
Definition dict_keys (u : unknowns) : list key := u.*1.

(** ** [create_unknowns_dict] *)

Definition all_values : list cell :=
  ["1"; "2"; "3"; "4"; "5"; "6"; "7"; "8"; "9"].

Definition create_unknowns_dict (b : board) : unknowns :=
  i ← seq 0 9;
  j ← seq 0 9;
  if decide (board_get b i j = "X") then [((i, j), all_values)] else [].

(** ** [get_row], [get_column], [get_square] *)

Definition get_row (b : board) (X : nat) : list cell :=
  filter (λ x, x ≠ "X") (b !!! X).

Definition get_column (b : board) (Y : nat) : list cell :=
  filter (λ x, x ≠ "X") ((λ row : list cell, row !!! Y) <$> b).

Definition get_square (b : board) (X Y : nat) : list cell :=
  i ← seq (X / 3 * 3) 3;
  j ← seq (Y / 3 * 3) 3;
  if decide (board_get b i j ≠ "X") then [board_get b i j] else [].

(** ** [remove_impossible_values] *)

Definition impossible_values (b : board) (X Y : nat) : list cell :=
  get_row b X ++ get_column b Y ++ get_square b X Y.

Definition remove_impossible_values
    (X Y : nat) (possible : list cell) (b : board) : list cell :=
  filter (λ x, x ∉ impossible_values b X Y) possible.

(** ** [check_only_possible_location] *)

Definition others_in_row (k : key) (u : unknowns) : list (list cell) :=
  (filter (λ x : key * list cell, x.1.1 = k.1 ∧ x.1 ≠ k) u).*2.

Definition others_in_column (k : key) (u : unknowns) : list (list cell) :=
  (filter (λ x : key * list cell, x.1.2 = k.2 ∧ x.1 ≠ k) u).*2.

Definition others_in_square (k : key) (u : unknowns) : list (list cell) :=
  i ← seq 0 3;
  j ← seq 0 3;
  if decide ((k.1 / 3 * 3 + i, k.2 / 3 * 3 + j) ≠ k)
  then [dict_item u (k.1 / 3 * 3 + i, k.2 / 3 * 3 + j)] else [].

Definition check_only_possible_location
    (k : key) (value : cell) (u : unknowns) : bool :=
  let flattened_row := concat (others_in_row k u) in
  let flattened_column := concat (others_in_column k u) in
  let flattened_square := concat (others_in_square k u) in
  bool_decide (value ∉ flattened_row)
  || bool_decide (value ∉ flattened_column)
  || bool_decide (value ∉ flattened_square).

(** ** The two passes of [solve_board] *)

(** Body of the first [for key in unknowns] loop. *)
Definition elim_step (st : state) (k : key) : state :=
  let '(b, u) := st in
  let possible := remove_impossible_values k.1 k.2 (dict_item u k) b in
  let u' := dict_set u k possible in
  match possible with
  | [v] => (board_set b k.1 k.2 v, u')
  | _ => (b, u')
  end.

(** The inner [for value in unknowns[key]] loop with its [break]. *)
Fixpoint try_values (k : key) (values : list cell) (st : state) : state :=
  match values with
  | [] => st
  | value :: rest =>
      if check_only_possible_location k value st.2
      then (board_set st.1 k.1 k.2 value, dict_set st.2 k [value])
      else try_values k rest st
  end.

(** Body of the second [for key in unknowns] loop. *)
Definition hidden_step (st : state) (k : key) : state :=
  try_values k (dict_item st.2 k) st.

(** A [for key in unknowns] loop: the keys are those of the dictionary when
    the loop starts (the bodies replace values, never add or drop a key). *)
Definition for_keys (body : state → key → state) (st : state) : state :=
  foldl body st (dict_keys st.2).

Definition elim_pass (st : state) : state := for_keys elim_step st.
Definition hidden_pass (st : state) : state := for_keys hidden_step st.

(** One turn of the [while] body, up to [iterations += 1]. *)
Definition round (st : state) : state := hidden_pass (elim_pass st).

(** ** The [while] loop *)

(** ["X" in board] *)
Definition has_unknown (b : board) : bool := bool_decide ("X" ∈ concat b).

(** [np.array_equal(start_board, board)] *)
Definition array_equal (b1 b2 : board) : bool := bool_decide (b1 = b2).

(** How the loop was left: by its condition or by the [break]. *)
Inductive terminal := Complete | Stalled.

Record outcome := Outcome {
  out_terminal : terminal;
  out_board : board;
  out_unknowns : unknowns;
  out_iterations : nat
}.

(** The loop with a bound on the number of turns; [None] when the bound is
    reached before the loop is left. *)
Fixpoint solve_loop (fuel : nat) (st : state) (iterations : nat)
    : option outcome :=
  if has_unknown st.1 then
    match fuel with
    | 0 => None
    | S fuel' =>
        let start_board := st.1 in
        let st' := round st in
        let iterations := iterations + 1 in
        if array_equal start_board st'.1
        then Some (Outcome Stalled st'.1 st'.2 iterations)
        else solve_loop fuel' st' iterations
    end
  else Some (Outcome Complete st.1 st.2 iterations).

Definition init (b : board) : state := (b, create_unknowns_dict b).

(** ** [check_solution] *)

Inductive exn := AssertionError | ValueError | OverflowError.

Inductive res (A : Type) :=
  | Ret (a : A)
  | Raise (e : exn).
Arguments Ret {A} a.
Arguments Raise {A} e.

#[global] Instance res_bind : MBind res := λ A B f m,
  match m with
  | Ret a => f a
  | Raise e => Raise e
  end.

Definition assert (c : bool) : res unit :=
  if c then Ret tt else Raise AssertionError.

Fixpoint res_map {A B} (f : A → res B) (l : list A) : res (list B) :=
  match l with
  | [] => Ret []
  | a :: l' => y ← f a; ys ← res_map f l'; Ret (y :: ys)
  end.

(** [int(s)] on a text token, over ASCII: surrounding white space is
    dropped, one sign is allowed, then decimal digits, where one underscore
    may stand between two digits.  [None] is Python's [ValueError]. *)
Definition is_space (a : ascii) : bool :=
  let n := nat_of_ascii a in
  (9 <=? n) && (n <=? 13) || (28 <=? n) && (n <=? 32).

Definition digit_of (a : ascii) : option Z :=
  let n := nat_of_ascii a in
  if (48 <=? n) && (n <=? 57) then Some (Z.of_nat (n - 48)) else None.

Fixpoint lstrip (s : list ascii) : list ascii :=
  match s with
  | a :: s' => if is_space a then lstrip s' else s
  | [] => []
  end.

Definition strip (s : list ascii) : list ascii :=
  reverse (lstrip (reverse (lstrip s))).

Fixpoint parse_digits (acc : Z) (after_digit : bool) (s : list ascii)
    : option Z :=
  match s with
  | [] => if after_digit then Some acc else None
  | a :: s' =>
      match digit_of a with
      | Some d => parse_digits (10 * acc + d) true s'
      | None =>
          if after_digit && bool_decide (a = "_"%char)
          then parse_digits acc false s' else None
      end
  end.

Definition py_int (s : string) : option Z :=
  match strip (list_ascii_of_string s) with
  | "-"%char :: ds => Z.opp <$> parse_digits 0 false ds
  | "+"%char :: ds => parse_digits 0 false ds
  | ds => parse_digits 0 false ds
  end.

(** One element of [board.astype(int)]: the target is a 64-bit integer. *)
Definition to_int64 (c : cell) : res Z :=
  match py_int c with
  | None => Raise ValueError
  | Some z =>
      if bool_decide (- 2 ^ 63 ≤ z < 2 ^ 63)%Z then Ret z
      else Raise OverflowError
  end.

Definition astype_int (b : board) : res (list (list Z)) :=
  res_map (res_map to_int64) b.

(** [len(set(l))] *)
Definition len_set (l : list cell) : nat := length (remove_dups l).

(** [board.T], iterated column by column. *)
Definition columns (b : board) : list (list cell) :=
  (λ j, (λ row : list cell, row !!! j) <$> b) <$> seq 0 (length (b !!! 0)).

(** [board[i*3 : i*3+3, j*3 : j*3+3].flatten()] *)
Definition block (b : board) (i j : nat) : list cell :=
  row ← take 3 (drop (i * 3) b); take 3 (drop (j * 3) row).

Definition blocks (b : board) : list (list cell) :=
  i ← seq 0 3; j ← seq 0 3; [block b i j].

Definition sum_all (m : list (list Z)) : Z := foldr Z.add 0%Z (concat m).

Definition check_solution (b : board) : res unit :=
  assert (forallb (λ row, bool_decide (len_set row = 9)) b) ;;
  assert (forallb (λ column, bool_decide (len_set column = 9)) (columns b)) ;;
  assert (forallb (λ sq, bool_decide (len_set sq = 9)) (blocks b)) ;;
  assert (forallb (λ x, bool_decide (x ≠ "X")) (concat b)) ;;
  m ← astype_int b;
  assert (forallb (λ z : Z, bool_decide (z ≤ 9)%Z) (concat m)
          && forallb (λ z : Z, bool_decide (1 ≤ z)%Z) (concat m)) ;;
  assert (bool_decide (sum_all m = 405%Z)).

(** ** [solve_board], from the board on *)

(** [f"{n}"] for a non-negative integer. *)
Definition str_of_nat (n : nat) : string :=
  NilZero.string_of_uint (Nat.to_uint n).

Definition solved_message (iterations : nat) : string :=
  "SOLVED! (in " +:+ str_of_nat iterations +:+ " iterations)".

Definition not_solved_message (iterations : nat) : string :=
  "NOT SOLVED! (in " +:+ str_of_nat iterations +:+ " iterations)".

(** What a run leaves behind: the printed line and the returned board, or
    the exception that escapes. *)
Definition report (o : outcome) : res (string * board) :=
  match check_solution (out_board o) with
  | Ret _ => Ret (solved_message (out_iterations o), out_board o)
  | Raise AssertionError =>
      Ret (not_solved_message (out_iterations o), out_board o)
  | Raise e => Raise e
  end.

Definition solve_board (fuel : nat) (b : board) : option (res (string * board)) :=
  report <$> solve_loop fuel (init b) 0.

(** ** The schedule of a run

    A run of the loop is a sequence of visits: in every turn each key is
    visited by the first [for] loop, then each key by the second. *)

Inductive visit := Elim (k : key) | Hidden (k : key).

#[global] Instance visit_eq_dec : EqDecision visit.
Proof. solve_decision. Defined.

Definition visit_key (v : visit) : key :=
  match v with Elim k | Hidden k => k end.

Definition visit_step (st : state) (v : visit) : state :=
  match v with
  | Elim k => elim_step st k
  | Hidden k => hidden_step st k
  end.

Definition round_visits (ks : list key) : list visit :=
  (Elim <$> ks) ++ (Hidden <$> ks).

(** The visits of [n] turns on the keys [ks]. *)
Definition schedule (ks : list key) (n : nat) : list visit :=
  concat (replicate n (round_visits ks)).

(** The state after the first [t] visits of a run of [n] turns on [b]. *)
Definition state_at (b : board) (n t : nat) : state :=
  foldl visit_step (init b)
    (take t (schedule (dict_keys (create_unknowns_dict b)) n)).

(** Number of cells that hold ["X"]. *)
Definition count_unknown (b : board) : nat :=
  length (filter (λ x, x = "X") (concat b)).

(** ** The invariant of the loop

    What relates the candidates of a key to the board between two visits:
    the key lies inside the array, its candidates are drawn from ["1"] to
    ["9"] without repetition, its cell is unknown or holds one of these
    nine values, a single candidate is the value on the board, and a cell
    with two candidates or more is still unknown. *)
Definition cand_ok (b : board) (k : key) (cs : list cell) : Prop :=
  k.1 < 9 ∧ k.2 < 9 ∧ cs `sublist_of` all_values ∧
  board_get b k.1 k.2 ∈ "X" :: all_values ∧
  match cs with
  | [] => True
  | [v] => board_get b k.1 k.2 = v
  | _ => board_get b k.1 k.2 = "X"
  end.

Definition inv (st : state) : Prop :=
  wf_board st.1 ∧ ∀ k cs, dict_get st.2 k = Some cs → cand_ok st.1 k cs.

(** What one visit of a key can do to the state: nothing, replace the
    candidates by fewer without touching the board, or commit one of the
    candidates to the board. *)
Inductive effect (k : key) (st : state) : state → Prop :=
  | effect_none : effect k st st
  | effect_prune cs' :
      cs' `sublist_of` dict_item st.2 k →
      length cs' ≠ 1 →
      effect k st (st.1, dict_set st.2 k cs')
  | effect_commit v :
      v ∈ dict_item st.2 k →
      effect k st (board_set st.1 k.1 k.2 v, dict_set st.2 k [v]).

(** [evolves st st']: what holds of a later state [st'] against an earlier
    one: the same keys, every known cell unchanged, candidates only removed,
    and a board that is the same or has fewer unknown cells. *)
Definition evolves (st st' : state) : Prop :=
  dict_keys st'.2 = dict_keys st.2 ∧
  (∀ i j, board_get st.1 i j ≠ "X" →
          board_get st'.1 i j = board_get st.1 i j) ∧
  (∀ k, dict_item st'.2 k `sublist_of` dict_item st.2 k) ∧
  (st'.1 = st.1 ∨ count_unknown st'.1 < count_unknown st.1).

(** ** The groups, in the words of the specification

    These definitions follow the specification, not [solver.py]; the
    theorems on the two passes compare the code with them. *)

Definition in_grid (k : key) : Prop := k.1 < 9 ∧ k.2 < 9.
Definition same_row (k k' : key) : Prop := k'.1 = k.1.
Definition same_column (k k' : key) : Prop := k'.2 = k.2.
Definition same_box (k k' : key) : Prop :=
  k'.1 / 3 = k.1 / 3 ∧ k'.2 / 3 = k.2 / 3.

(** [x] is a resolved symbol held by a cell other than [k] in the row, the
    column or the box of [k]. *)
Definition spec_excluded (b : board) (k : key) (x : cell) : Prop :=
  x ≠ "X" ∧
  ∃ k', in_grid k' ∧ k' ≠ k ∧
        (same_row k k' ∨ same_column k k' ∨ same_box k k') ∧
        board_get b k'.1 k'.2 = x.

(** [v] is a candidate of no other tracked cell of the group [G] of [k]. *)
Definition spec_absent (G : key → key → Prop)
    (u : unknowns) (k : key) (v : cell) : Prop :=
  ∀ k', k' ∈ dict_keys u → k' ≠ k → G k k' → v ∉ dict_item u k'.

(** [v] is absent from the other cells of at least one of the three groups. *)
Definition spec_forced (u : unknowns) (k : key) (v : cell) : Prop :=
  spec_absent same_row u k v ∨ spec_absent same_column u k v
  ∨ spec_absent same_box u k v.

(** The 27 groups as lists of coordinates, and what the specification asks
    of a solved board. *)
Definition row_cells (i : nat) : list key := (λ j, (i, j)) <$> seq 0 9.
Definition column_cells (j : nat) : list key := (λ i, (i, j)) <$> seq 0 9.
Definition box_cells (bi bj : nat) : list key :=
  i ← seq (bi * 3) 3; j ← seq (bj * 3) 3; [(i, j)].

Definition all_groups : list (list key) :=
  (row_cells <$> seq 0 9) ++ (column_cells <$> seq 0 9)
  ++ (bi ← seq 0 3; bj ← seq 0 3; [box_cells bi bj]).

Definition all_cells : list key := i ← seq 0 9; j ← seq 0 9; [(i, j)].

Definition values_at (b : board) (g : list key) : list cell :=
  (λ k, board_get b k.1 k.2) <$> g.

(** The cells of a group hold pairwise distinct symbols. *)
Definition distinct_on (b : board) (g : list key) : Prop :=
  ∀ k1 k2, k1 ∈ g → k2 ∈ g → k1 ≠ k2 →
           board_get b k1.1 k1.2 ≠ board_get b k2.1 k2.2.

(** The integer a token stands for. *)
Definition int_value (c : cell) : Z := default 0%Z (py_int c).

Definition spec_valid (b : board) : Prop :=
  (∀ g, g ∈ all_groups → distinct_on b g) ∧
  (∀ k, k ∈ all_cells → board_get b k.1 k.2 ≠ "X") ∧
  (∀ k, k ∈ all_cells →
        ∃ z, py_int (board_get b k.1 k.2) = Some z ∧ (1 ≤ z ≤ 9)%Z) ∧
  foldr Z.add 0%Z (int_value <$> values_at b all_cells) = 405%Z.

(** A token that [astype(int)] converts, and a grid in the sense of the
    data model: every cell is the unknown marker or such a token. *)
Definition convertible (c : cell) : Prop :=
  match py_int c with
  | Some z => (- 2 ^ 63 ≤ z < 2 ^ 63)%Z
  | None => False
  end.

#[global] Instance convertible_dec c : Decision (convertible c).
Proof. unfold convertible. destruct (py_int c); apply _. Defined.

Definition grid_tokens (b : board) : Prop :=
  Forall (λ k : key, board_get b k.1 k.2 = "X"
                     ∨ convertible (board_get b k.1 k.2)) all_cells.

(** ** Boards used as instances *)

Definition example_puzzle : board := [
  ["5"; "3"; "X"; "X"; "7"; "X"; "X"; "X"; "X"];
  ["6"; "X"; "X"; "1"; "9"; "5"; "X"; "X"; "X"];
  ["X"; "9"; "8"; "X"; "X"; "X"; "X"; "6"; "X"];
  ["8"; "X"; "X"; "X"; "6"; "X"; "X"; "X"; "3"];
  ["4"; "X"; "X"; "8"; "X"; "3"; "X"; "X"; "1"];
  ["7"; "X"; "X"; "X"; "2"; "X"; "X"; "X"; "6"];
  ["X"; "6"; "X"; "X"; "X"; "X"; "2"; "8"; "X"];
  ["X"; "X"; "X"; "4"; "1"; "9"; "X"; "X"; "5"];
  ["X"; "X"; "X"; "X"; "8"; "X"; "X"; "7"; "9"]].

Definition example_solution : board := [
  ["5"; "3"; "4"; "6"; "7"; "8"; "9"; "1"; "2"];
  ["6"; "7"; "2"; "1"; "9"; "5"; "3"; "4"; "8"];
  ["1"; "9"; "8"; "3"; "4"; "2"; "5"; "6"; "7"];
  ["8"; "5"; "9"; "7"; "6"; "1"; "4"; "2"; "3"];
  ["4"; "2"; "6"; "8"; "5"; "3"; "7"; "9"; "1"];
  ["7"; "1"; "3"; "9"; "2"; "4"; "8"; "5"; "6"];
  ["9"; "6"; "1"; "5"; "3"; "7"; "2"; "8"; "4"];
  ["2"; "8"; "7"; "4"; "1"; "9"; "6"; "3"; "5"];
  ["3"; "4"; "5"; "2"; "8"; "6"; "1"; "7"; "9"]].

(** [example_solution] with row 8 unknown but for its last cell, the cell
    (0, 8) unknown, and a second ["2"] in column 8, at (1, 8).  Row 0 holds
    every symbol but ["2"] and column 8 holds ["2"], so no candidate is left
    for (0, 8); each unknown cell of row 8 has a single candidate. *)
Definition contradictory_puzzle : board := [
  ["5"; "3"; "4"; "6"; "7"; "8"; "9"; "1"; "X"];
  ["6"; "7"; "2"; "1"; "9"; "5"; "3"; "4"; "2"];
  ["1"; "9"; "8"; "3"; "4"; "2"; "5"; "6"; "7"];
  ["8"; "5"; "9"; "7"; "6"; "1"; "4"; "2"; "3"];
  ["4"; "2"; "6"; "8"; "5"; "3"; "7"; "9"; "1"];
  ["7"; "1"; "3"; "9"; "2"; "4"; "8"; "5"; "6"];
  ["9"; "6"; "1"; "5"; "3"; "7"; "2"; "8"; "4"];
  ["2"; "8"; "7"; "4"; "1"; "9"; "6"; "3"; "5"];
  ["X"; "X"; "X"; "X"; "X"; "X"; "X"; "X"; "9"]].

(** The board the loop ends with on [contradictory_puzzle]. *)
Definition contradictory_result : board := [
  ["5"; "3"; "4"; "6"; "7"; "8"; "9"; "1"; "X"];
  ["6"; "7"; "2"; "1"; "9"; "5"; "3"; "4"; "2"];
  ["1"; "9"; "8"; "3"; "4"; "2"; "5"; "6"; "7"];
  ["8"; "5"; "9"; "7"; "6"; "1"; "4"; "2"; "3"];
  ["4"; "2"; "6"; "8"; "5"; "3"; "7"; "9"; "1"];
  ["7"; "1"; "3"; "9"; "2"; "4"; "8"; "5"; "6"];
  ["9"; "6"; "1"; "5"; "3"; "7"; "2"; "8"; "4"];
  ["2"; "8"; "7"; "4"; "1"; "9"; "6"; "3"; "5"];
  ["3"; "4"; "5"; "2"; "8"; "6"; "1"; "7"; "9"]].

Definition contradictory_outcome : outcome :=
  Outcome Stalled contradictory_result
    [((0, 8), []); ((8, 0), []); ((8, 1), []); ((8, 2), []); ((8, 3), []);
     ((8, 4), []); ((8, 5), []); ((8, 6), []); ((8, 7), [])]
    2.

(** The grid without a clue: the two rules find nothing to do on it. *)
Definition blank_puzzle : board := replicate 9 (replicate 9 "X").

(** The outcome of the loop on [example_puzzle]. *)
Definition example_outcome : outcome :=
  Eval vm_compute in
    default (Outcome Stalled [] [] 0) (solve_loop 81 (init example_puzzle) 0).

(** ** Solutions

    What it means for the solver to be right about a puzzle: a solution is
    a full 9x9 grid of the symbols ["1"] to ["9"] whose 27 groups hold
    distinct symbols, and it solves a board when it agrees with every cell
    the board has resolved. *)
Definition solution (S : board) : Prop :=
  wf_board S ∧
  Forall (λ g, NoDup (values_at S g)) all_groups ∧
  Forall (λ k : key, board_get S k.1 k.2 ∈ all_values) all_cells.

Definition agrees (b S : board) : Prop :=
  Forall (λ k : key, board_get b k.1 k.2 = "X"
                     ∨ board_get b k.1 k.2 = board_get S k.1 k.2) all_cells.

(** Two distinct cells that share a row, a column or a box. *)
Definition related (k c : key) : Prop :=
  same_row k c ∨ same_column k c ∨ same_box k c.

(** The state of a run against a solution [S]: besides the invariant of
    the loop, the board agrees with [S], the symbol of [S] is still a
    candidate of every unknown key, and every unknown cell is a key. *)
Definition sound_state (S : board) (st : state) : Prop :=
  inv st ∧ NoDup (dict_keys st.2) ∧ agrees st.1 S ∧
  (∀ k, k ∈ dict_keys st.2 → board_get st.1 k.1 k.2 = "X" →
        board_get S k.1 k.2 ∈ dict_item st.2 k) ∧
  (∀ k, in_grid k → board_get st.1 k.1 k.2 = "X" → k ∈ dict_keys st.2).

(** The candidates of the unknown keys that have been visited are up to
    date: a symbol that a related cell [c] holds is no candidate of such a
    key, unless [c] is itself a visited key whose only candidate is that
    symbol. *)
Definition fresh (visited : key → Prop) (st : state) : Prop :=
  ∀ k c, k ∈ dict_keys st.2 → visited k → board_get st.1 k.1 k.2 = "X" →
         in_grid c → c ≠ k → related k c →
         board_get st.1 c.1 c.2 ≠ "X" →
         board_get st.1 c.1 c.2 ∉ dict_item st.2 k
         ∨ (c ∈ dict_keys st.2 ∧ visited c
            ∧ dict_item st.2 c = [board_get st.1 c.1 c.2]).

(** [example_solution] with the symbols ["1"] and ["2"] exchanged: a second
    solution of the grid without a clue. *)
Definition example_solution_swapped : board :=
  (λ row : list cell,
     (λ c : cell, if decide (c = "1") then "2"
                  else if decide (c = "2") then "1" else c) <$> row)
  <$> example_solution.

(** [example_solution] with the cell (0, 8) and the row 8, but for its
    last cell, unknown: the cell (0, 8) is the only gap of its row. *)
Definition last_row_puzzle : board := [
  ["5"; "3"; "4"; "6"; "7"; "8"; "9"; "1"; "X"];
  ["6"; "7"; "2"; "1"; "9"; "5"; "3"; "4"; "8"];
  ["1"; "9"; "8"; "3"; "4"; "2"; "5"; "6"; "7"];
  ["8"; "5"; "9"; "7"; "6"; "1"; "4"; "2"; "3"];
  ["4"; "2"; "6"; "8"; "5"; "3"; "7"; "9"; "1"];
  ["7"; "1"; "3"; "9"; "2"; "4"; "8"; "5"; "6"];
  ["9"; "6"; "1"; "5"; "3"; "7"; "2"; "8"; "4"];
  ["2"; "8"; "7"; "4"; "1"; "9"; "6"; "3"; "5"];
  ["X"; "X"; "X"; "X"; "X"; "X"; "X"; "X"; "9"]].

(** ** [pretty_print_board]

    The function prints one line per row, and a separator before the rows
    3 and 6; the model returns the lines in the order they are printed. *)

(** [" ".join(row[:3] + ["|"] + row[3:6] + ["|"] + row[6:9])]; the cells
    are strings, which [str] returns as they are. *)
Definition row_text (row : list cell) : string :=
  String.concat " "
    (take 3 row ++ ["|"] ++ take 3 (drop 3 row) ++ ["|"]
     ++ take 3 (drop 6 row)).

Definition separator : string := "------+-------+------".

(** [for count, row in enumerate(board)], from the index [count] on. *)
Fixpoint print_rows (count : nat) (rows : board) : list string :=
  match rows with
  | [] => []
  | row :: rest =>
      (if decide (count mod 3 = 0 ∧ count ≠ 0) then [separator] else [])
      ++ row_text row :: print_rows (S count) rest
  end.

Definition pretty_print_board (b : board) : list string := print_rows 0 b.

(** The string holds a space. *)
Fixpoint has_space (s : string) : bool :=
  match s with
  | EmptyString => false
  | String a s' => if decide (a = " "%char) then true else has_space s'
  end.

(** [example_solution] with the letter ["A"] for the symbol ["1"]: a
    complete board whose groups hold nine distinct tokens, one of which is
    no number. *)
Definition lettered_solution : board :=
  (λ row : list cell,
     (λ c : cell, if decide (c = "1") then "A" else c) <$> row)
  <$> example_solution.

(** * Properties *)

(** ** The dictionary *)

Lemma dict_get_set u k v k' :
  dict_get (dict_set u k v) k' = if decide (k = k') then Some v else dict_get u k'.
Proof.
  induction u as [|[k0 v0] u IH]; simpl.
  - repeat case_decide; congruence.
  - destruct (decide (k0 = k)) as [->|Hk0]; simpl.
    + repeat case_decide; congruence.
    + rewrite IH. repeat case_decide; congruence.
Qed.

Lemma dict_item_set_eq u k v : dict_item (dict_set u k v) k = v.
Proof. unfold dict_item. rewrite dict_get_set. by rewrite decide_True. Qed.

Lemma dict_item_set_ne u k v k' :
  k ≠ k' → dict_item (dict_set u k v) k' = dict_item u k'.
Proof. intros. unfold dict_item. rewrite dict_get_set. by rewrite decide_False. Qed.

Lemma dict_get_keys u k : is_Some (dict_get u k) ↔ k ∈ dict_keys u.
Proof.
  unfold dict_keys. induction u as [|[k0 v0] u IH]; simpl.
  - split; [intros [? [=]] | intros H; inversion H].
  - rewrite elem_of_cons. case_decide; subst.
    + split; eauto.
    + rewrite IH. split; [by right|]. intros [?|?]; [congruence|done].
Qed.

Lemma dict_keys_set u k v :
  k ∈ dict_keys u → dict_keys (dict_set u k v) = dict_keys u.
Proof.
  unfold dict_keys. induction u as [|[k0 v0] u IH]; simpl; intros Hk.
  - inversion Hk.
  - case_decide; subst; simpl; [done|].
    f_equal. apply IH. apply elem_of_cons in Hk as [?|?]; [congruence|done].
Qed.

Lemma dict_get_elem_of u k cs : dict_get u k = Some cs → (k, cs) ∈ u.
Proof.
  induction u as [|[k0 v0] u IH]; simpl; [done|].
  case_decide; subst.
  - intros [= ->]. left.
  - intros. right. auto.
Qed.

Lemma dict_get_NoDup u k cs :
  NoDup (dict_keys u) → (k, cs) ∈ u → dict_get u k = Some cs.
Proof.
  unfold dict_keys. induction u as [|[k0 v0] u IH]; simpl; intros Hnd Hin.
  - inversion Hin.
  - apply NoDup_cons in Hnd as [Hk0 Hnd].
    apply elem_of_cons in Hin as [[= -> ->]|Hin].
    + by rewrite decide_True.
    + case_decide; subst; [|by apply IH].
      exfalso. apply Hk0. apply list_elem_of_fmap. by exists (k, cs).
Qed.

(** ** The board *)

Lemma wf_board_row b i :
  wf_board b → i < 9 → ∃ row, b !! i = Some row ∧ length row = 9.
Proof.
  intros [Hlen Hrows] Hi.
  destruct (lookup_lt_is_Some_2 b i) as [row Hrow]; [lia|].
  exists row. split; [done|].
  by eapply (Forall_lookup_1 _ _ _ _ Hrows Hrow).
Qed.

Lemma wf_board_set b i j v : wf_board b → wf_board (board_set b i j v).
Proof.
  intros [Hlen Hrows]. split.
  - unfold board_set. by rewrite length_alter.
  - unfold board_set. apply Forall_alter; [done|].
    intros row _ Hrow. by rewrite length_insert.
Qed.

Lemma board_get_set_eq b i j v :
  wf_board b → i < 9 → j < 9 → board_get (board_set b i j v) i j = v.
Proof.
  intros Hwf Hi Hj. destruct (wf_board_row b i Hwf Hi) as (row & Hrow & Hlen).
  unfold board_get, board_set.
  rewrite (list_lookup_total_correct (alter _ i b) i (<[j:=v]> row)).
  - apply list_lookup_total_insert_eq. lia.
  - by rewrite list_lookup_alter_eq, Hrow.
Qed.

Lemma board_get_set_ne (b : board) i j v i' j' :
  (i, j) ≠ (i', j') →
  board_get (board_set b i j v) i' j' = board_get b i' j'.
Proof.
  intros Hne. unfold board_get, board_set.
  destruct (decide (i = i')) as [->|Hi].
  - rewrite !(list_lookup_total_alt _ i'), list_lookup_alter_eq.
    destruct (b !! i') as [row|]; simpl; [|done].
    rewrite !(list_lookup_total_alt _ j'), list_lookup_insert_ne; [done|congruence].
  - by rewrite list_lookup_total_alter_ne.
Qed.

Lemma board_set_same b i j :
  board_set b i j (board_get b i j) = b.
Proof.
  unfold board_set, board_get.
  apply list_eq. intros i'.
  destruct (decide (i = i')) as [<-|Hi].
  - rewrite list_lookup_alter_eq.
    destruct (b !! i) as [row|] eqn:Hrow; simpl; [|done].
    rewrite (list_lookup_total_correct _ _ _ Hrow).
    f_equal. apply list_eq. intros j'.
    destruct (decide (j = j')) as [<-|Hj].
    + destruct (row !! j) as [c|] eqn:Hc.
      * rewrite (list_lookup_total_correct _ _ _ Hc).
        rewrite list_lookup_insert_eq; [done|]. by eapply lookup_lt_Some.
      * rewrite list_insert_ge; [done|]. by apply lookup_ge_None.
    + by rewrite list_lookup_insert_ne.
  - by rewrite list_lookup_alter_ne.
Qed.

(** ** What a visit does *)

Lemma elim_step_eq (b : board) (u : unknowns) k :
  elim_step (b, u) k =
    let possible := remove_impossible_values k.1 k.2 (dict_item u k) b in
    (match possible with [v] => board_set b k.1 k.2 v | _ => b end,
     dict_set u k possible).
Proof.
  unfold elim_step. simpl.
  by destruct (remove_impossible_values _ _ _ _) as [|v [|w cs]].
Qed.

Lemma elim_step_effect st k : effect k st (elim_step st k).
Proof.
  destruct st as [b u]. rewrite elim_step_eq. simpl.
  assert (Hsub : remove_impossible_values k.1 k.2 (dict_item u k) b
                   `sublist_of` dict_item u k) by apply sublist_filter.
  destruct (remove_impossible_values _ _ _ _) as [|v [|w cs]] eqn:Hp.
  - by apply (effect_prune k (b, u) []).
  - apply (effect_commit k (b, u) v). by apply singleton_sublist_l.
  - by apply (effect_prune k (b, u) (v :: w :: cs)).
Qed.

Lemma try_values_cases k vs st :
  (try_values k vs st = st ∧
     ∀ v, v ∈ vs → check_only_possible_location k v st.2 = false)
  ∨ ∃ l1 v l2, vs = l1 ++ v :: l2 ∧
      (∀ w, w ∈ l1 → check_only_possible_location k w st.2 = false) ∧
      check_only_possible_location k v st.2 = true ∧
      try_values k vs st = (board_set st.1 k.1 k.2 v, dict_set st.2 k [v]).
Proof.
  induction vs as [|a vs IH]; simpl.
  - left. split; [done|]. intros v Hv. inversion Hv.
  - destruct (check_only_possible_location k a st.2) eqn:Ha.
    + right. exists [], a, vs. split_and!; [done| |done|done].
      intros w Hw. inversion Hw.
    + destruct IH as [[Heq Hall]|(l1 & v & l2 & -> & Hl1 & Hv & Heq)].
      * left. split; [done|]. intros v [->|Hv]%elem_of_cons; auto.
      * right. exists (a :: l1), v, l2. split_and!; [done| |done|done].
        intros w [->|Hw]%elem_of_cons; auto.
Qed.

Lemma hidden_step_effect st k : effect k st (hidden_step st k).
Proof.
  unfold hidden_step.
  destruct (try_values_cases k (dict_item st.2 k) st)
    as [[-> _]|(l1 & v & l2 & Hvs & _ & _ & ->)].
  - constructor.
  - apply effect_commit. rewrite Hvs. apply elem_of_app. right. left.
Qed.

Lemma visit_step_effect st v : effect (visit_key v) st (visit_step st v).
Proof. destruct v; [apply elim_step_effect | apply hidden_step_effect]. Qed.

(** ** Counting the unknown cells *)

Lemma length_filter_insert {A} (P : A → Prop) `{!∀ x, Decision (P x)}
    (l : list A) i x y :
  l !! i = Some y → P y → ¬ P x →
  S (length (filter P (<[i:=x]> l))) = length (filter P l).
Proof.
  intros Hi Hy Hx.
  rewrite insert_take_drop by (by eapply lookup_lt_Some).
  rewrite <- (take_drop_middle l i y Hi) at 3.
  rewrite !filter_app, !length_app.
  rewrite filter_cons_False, filter_cons_True by done. simpl. lia.
Qed.

Lemma board_set_split (b : board) i j v row :
  b !! i = Some row →
  board_set b i j v = take i b ++ <[j:=v]> row :: drop (S i) b ∧
  b = take i b ++ row :: drop (S i) b.
Proof.
  intros Hrow. split; [|by rewrite take_drop_middle].
  unfold board_set. rewrite <- insert_take_drop by (by eapply lookup_lt_Some).
  apply list_eq. intros i'. destruct (decide (i = i')) as [<-|Hne].
  - rewrite list_lookup_alter_eq, Hrow, list_lookup_insert_eq; [done|].
    by eapply lookup_lt_Some.
  - by rewrite list_lookup_alter_ne, list_lookup_insert_ne.
Qed.

Lemma count_unknown_set (b : board) i j v :
  wf_board b → i < 9 → j < 9 → board_get b i j = "X" → v ≠ "X" →
  S (count_unknown (board_set b i j v)) = count_unknown b.
Proof.
  intros Hwf Hi Hj Hget Hv.
  destruct (wf_board_row b i Hwf Hi) as (row & Hrow & Hlen).
  destruct (board_set_split b i j v row Hrow) as [Hset Hb].
  assert (Hc : row !! j = Some "X").
  { unfold board_get in Hget.
    rewrite (list_lookup_total_correct _ _ _ Hrow) in Hget.
    destruct (lookup_lt_is_Some_2 row j) as [c Hc]; [lia|].
    by rewrite (list_lookup_total_correct _ _ _ Hc) in Hget; subst. }
  revert Hset Hb. generalize (take i b) (drop (S i) b). intros pre post Hset Hb.
  unfold count_unknown. rewrite Hset, Hb.
  rewrite !concat_app, !concat_cons, !filter_app, !length_app.
  rewrite <- (length_filter_insert (λ x, x = "X") row j v "X"); [lia|done..].
Qed.

Lemma count_unknown_bound (b : board) : wf_board b → count_unknown b ≤ 81.
Proof.
  intros [Hlen Hrows]. unfold count_unknown.
  etrans; [apply length_filter|].
  do 10 (destruct b as [|? b]; try discriminate Hlen).
  repeat match goal with H : Forall _ (_ :: _) |- _ =>
    apply Forall_cons in H as [? H] end.
  simpl. rewrite !length_app. simpl. lia.
Qed.

Lemma has_unknown_count (b : board) :
  has_unknown b = true ↔ 0 < count_unknown b.
Proof.
  unfold has_unknown, count_unknown. rewrite bool_decide_eq_true.
  split.
  - intros Hin. destruct (filter _ _) eqn:Hf; simpl; [|lia].
    by apply (filter_nil_not_elem_of _ _ "X") in Hf.
  - destruct (filter _ _) as [|x l] eqn:Hf; simpl; [lia|]. intros _.
    assert (Hx : x ∈ filter (λ x, x = "X") (concat b)) by (rewrite Hf; left).
    apply list_elem_of_filter in Hx as [-> ?]. done.
Qed.

(** ** The invariant is kept by every visit *)

Lemma all_values_known v : v ∈ all_values → v ≠ "X".
Proof.
  unfold all_values. intros H ->.
  repeat (apply elem_of_cons in H as [H|H]; [discriminate H|]). inversion H.
Qed.

Lemma inv_key_cands st k :
  inv st → k ∈ dict_keys st.2 →
  dict_get st.2 k = Some (dict_item st.2 k) ∧ cand_ok st.1 k (dict_item st.2 k).
Proof.
  intros [_ Hc] Hk. apply dict_get_keys in Hk as [cs Hcs].
  unfold dict_item. rewrite Hcs. simpl. auto.
Qed.

Lemma commit_value st k v :
  inv st → k ∈ dict_keys st.2 → v ∈ dict_item st.2 k →
  k.1 < 9 ∧ k.2 < 9 ∧ v ∈ all_values ∧
  (board_get st.1 k.1 k.2 = "X" ∨ board_get st.1 k.1 k.2 = v).
Proof.
  intros Hinv Hk Hv.
  destruct (inv_key_cands st k Hinv Hk) as [_ (H1 & H2 & Hsub & _ & Hm)].
  split_and!; [done|done|by eapply sublist_subseteq|].
  destruct (dict_item st.2 k) as [|w [|w' cs]].
  - inversion Hv.
  - apply list_elem_of_singleton in Hv as ->. by right.
  - by left.
Qed.

Lemma effect_keys k st st' :
  k ∈ dict_keys st.2 → effect k st st' → dict_keys st'.2 = dict_keys st.2.
Proof. intros Hk [| |]; simpl; [done|by apply dict_keys_set..]. Qed.

Lemma effect_cands k st st' k' :
  effect k st st' → dict_item st'.2 k' `sublist_of` dict_item st.2 k'.
Proof.
  intros [|cs' Hsub _|v Hv]; simpl; [done| |].
  - destruct (decide (k = k')) as [<-|Hne].
    + by rewrite dict_item_set_eq.
    + by rewrite dict_item_set_ne.
  - destruct (decide (k = k')) as [<-|Hne].
    + rewrite dict_item_set_eq. by apply singleton_sublist_l.
    + by rewrite dict_item_set_ne.
Qed.

Lemma effect_board_other k st st' i j :
  effect k st st' → (i, j) ≠ k → board_get st'.1 i j = board_get st.1 i j.
Proof.
  intros [| |v Hv] Hne; simpl; [done..|].
  apply board_get_set_ne. destruct k. simpl. congruence.
Qed.

Lemma effect_board_mono k st st' i j :
  inv st → k ∈ dict_keys st.2 → effect k st st' →
  board_get st.1 i j ≠ "X" → board_get st'.1 i j = board_get st.1 i j.
Proof.
  intros Hinv Hk Heff Hij. destruct (decide ((i, j) = k)) as [<-|Hne].
  - destruct Heff as [| |v Hv]; simpl in *; [done..|].
    destruct (commit_value st (i, j) v Hinv Hk Hv) as (Hi & Hj & _ & [?|Hb]);
      [done|]. simpl in *.
    rewrite board_get_set_eq; [done|apply Hinv|done..].
  - by eapply effect_board_other.
Qed.

Lemma effect_count k st st' :
  inv st → k ∈ dict_keys st.2 → effect k st st' →
  st'.1 = st.1 ∨ count_unknown st'.1 < count_unknown st.1.
Proof.
  intros Hinv Hk [| |v Hv]; simpl; [by left..|].
  destruct (commit_value st k v Hinv Hk Hv) as (Hi & Hj & Hval & [Hb|Hb]).
  - right. apply all_values_known in Hval.
    rewrite <- (count_unknown_set st.1 k.1 k.2 v); [lia|apply Hinv|done..].
  - left. rewrite <- Hb. apply board_set_same.
Qed.

Lemma effect_inv k st st' :
  inv st → k ∈ dict_keys st.2 → effect k st st' → inv st'.
Proof.
  intros Hinv Hk Heff.
  destruct (inv_key_cands st k Hinv Hk) as [_ (Hk1 & Hk2 & Hsub & Hval & Hm)].
  destruct Hinv as [Hwf Hc].
  destruct Heff as [|cs' Hcs' Hlen|v Hv]; simpl in *.
  - by split.
  - split; [done|]. simpl. intros k0 cs0. rewrite dict_get_set.
    case_decide as Hk0; [|by apply Hc]. intros [= <-]. subst k0.
    split_and!; [done|done|by etrans|done|].
    destruct cs' as [|a [|a' cs']]; [done|done|].
    apply sublist_length in Hcs'.
    destruct (dict_item st.2 k) as [|c [|c' cs]]; simpl in *; [lia|lia|done].
  - assert (Hv' : v ∈ all_values) by (eapply sublist_subseteq; done).
    split; [by apply wf_board_set|]. simpl. intros k0 cs0. rewrite dict_get_set.
    case_decide as Hk0.
    + intros [= <-]. subst k0. unfold cand_ok.
      rewrite board_get_set_eq by done. split_and!; [done|done| | |done].
      * by apply singleton_sublist_l.
      * by right.
    + intros Hget. destruct (Hc k0 cs0 Hget) as (H1 & H2 & H3 & H4 & H5).
      unfold cand_ok.
      rewrite board_get_set_ne; [done|]. destruct k, k0. simpl. congruence.
Qed.

(** ** Runs of visits *)

Lemma evolves_refl st : evolves st st.
Proof. split_and!; [done|done|done|by left]. Qed.

Lemma evolves_trans st1 st2 st3 :
  evolves st1 st2 → evolves st2 st3 → evolves st1 st3.
Proof.
  intros (Hk1 & Hb1 & Hc1 & Hn1) (Hk2 & Hb2 & Hc2 & Hn2). split_and!.
  - congruence.
  - intros i j Hij. pose proof (Hb1 i j Hij) as H1.
    rewrite <- H1. apply Hb2. by rewrite H1.
  - intros k. etrans; [apply Hc2|apply Hc1].
  - destruct Hn1 as [Hn1|Hn1], Hn2 as [Hn2|Hn2].
    + left. congruence.
    + right. by rewrite <- Hn1.
    + right. by rewrite Hn2.
    + right. lia.
Qed.

Lemma effect_evolves k st st' :
  inv st → k ∈ dict_keys st.2 → effect k st st' → evolves st st'.
Proof.
  intros Hinv Hk Heff. split_and!.
  - by eapply effect_keys.
  - intros i j. by eapply effect_board_mono.
  - intros k'. by eapply effect_cands.
  - by eapply effect_count.
Qed.

Lemma run_evolves st vs :
  inv st → Forall (λ v, visit_key v ∈ dict_keys st.2) vs →
  inv (foldl visit_step st vs) ∧ evolves st (foldl visit_step st vs).
Proof.
  revert st. induction vs as [|v vs IH]; intros st Hinv Hvs; simpl.
  - split; [done|apply evolves_refl].
  - apply Forall_cons in Hvs as [Hv Hvs].
    pose proof (visit_step_effect st v) as Heff.
    pose proof (effect_inv _ _ _ Hinv Hv Heff) as Hinv'.
    pose proof (effect_evolves _ _ _ Hinv Hv Heff) as Hev.
    destruct (IH (visit_step st v) Hinv') as [Hinv'' Hev'].
    + destruct Hev as [-> _]. done.
    + split; [done|]. by eapply evolves_trans.
Qed.

Lemma round_visits_keys ks : Forall (λ v, visit_key v ∈ ks) (round_visits ks).
Proof.
  unfold round_visits. apply Forall_app. split; apply Forall_fmap, Forall_forall; done.
Qed.

Lemma schedule_keys ks n : Forall (λ v, visit_key v ∈ ks) (schedule ks n).
Proof.
  unfold schedule. induction n as [|n IH]; simpl; [constructor|].
  apply Forall_app. split; [apply round_visits_keys|done].
Qed.

Lemma schedule_S ks n : schedule ks (S n) = schedule ks n ++ round_visits ks.
Proof. unfold schedule. by rewrite replicate_S_end, concat_app; simpl; rewrite app_nil_r. Qed.

Lemma elim_pass_run st :
  elim_pass st = foldl visit_step st (Elim <$> dict_keys st.2).
Proof. unfold elim_pass, for_keys. by rewrite foldl_fmap. Qed.

Lemma hidden_pass_run st :
  hidden_pass st = foldl visit_step st (Hidden <$> dict_keys st.2).
Proof. unfold hidden_pass, for_keys. by rewrite foldl_fmap. Qed.

Lemma elim_pass_evolves st :
  inv st → inv (elim_pass st) ∧ evolves st (elim_pass st).
Proof.
  intros Hinv. rewrite elim_pass_run. apply run_evolves; [done|].
  apply Forall_fmap, Forall_forall. done.
Qed.

Lemma round_run st :
  inv st → round st = foldl visit_step st (round_visits (dict_keys st.2)).
Proof.
  intros Hinv. unfold round, round_visits. rewrite foldl_app, <- elim_pass_run.
  rewrite hidden_pass_run.
  destruct (elim_pass_evolves st Hinv) as [_ [-> _]]. done.
Qed.

Lemma round_evolves st : inv st → inv (round st) ∧ evolves st (round st).
Proof.
  intros Hinv. rewrite round_run by done. apply run_evolves; [done|].
  apply round_visits_keys.
Qed.

Lemma iter_round_evolves st n :
  inv st → inv (Nat.iter n round st) ∧ evolves st (Nat.iter n round st).
Proof.
  intros Hinv. induction n as [|n [IH1 IH2]]; simpl.
  - split; [done|apply evolves_refl].
  - destruct (round_evolves _ IH1). split; [done|]. by eapply evolves_trans.
Qed.

Lemma iter_round_run st n :
  inv st →
  Nat.iter n round st = foldl visit_step st (schedule (dict_keys st.2) n).
Proof.
  intros Hinv. induction n as [|n IH]; [done|].
  rewrite schedule_S, foldl_app, <- IH. simpl.
  destruct (iter_round_evolves st n Hinv) as [Hinv' [Hk _]].
  rewrite round_run by done. by rewrite Hk.
Qed.

(** ** The initial state *)

Lemma create_unknowns_dict_elem (b : board) k cs :
  (k, cs) ∈ create_unknowns_dict b ↔
  k.1 < 9 ∧ k.2 < 9 ∧ board_get b k.1 k.2 = "X" ∧ cs = all_values.
Proof.
  unfold create_unknowns_dict. rewrite list_elem_of_bind. split.
  - intros (i & (j & Hin & Hj%elem_of_seq)%list_elem_of_bind & Hi%elem_of_seq).
    case_decide as Hx; [|inversion Hin].
    apply list_elem_of_singleton in Hin as [= -> ->]. simpl.
    split_and!; [lia|lia|done|done].
  - destruct k as [i j]. intros (Hi & Hj & Hx & ->). simpl in Hi, Hj, Hx.
    exists i. split; [|apply elem_of_seq; lia].
    apply list_elem_of_bind. exists j. split; [|apply elem_of_seq; lia].
    rewrite decide_True by done. left.
Qed.

Lemma inv_init (b : board) : wf_board b → inv (init b).
Proof.
  intros Hwf. split; [done|]. simpl. intros k cs Hget%dict_get_elem_of.
  apply create_unknowns_dict_elem in Hget as (Hi & Hj & Hx & ->).
  split_and!; [done|done|done| |done]. rewrite Hx. left.
Qed.

(** ** The states of a run *)

Lemma state_at_inv (b : board) n t :
  wf_board b → inv (state_at b n t) ∧ evolves (init b) (state_at b n t).
Proof.
  intros Hwf. unfold state_at. apply run_evolves; [by apply inv_init|].
  apply Forall_take, schedule_keys.
Qed.

Lemma state_at_split (b : board) n t1 t2 :
  t1 ≤ t2 →
  state_at b n t2
  = foldl visit_step (state_at b n t1)
      (take (t2 - t1) (drop t1 (schedule (dict_keys (create_unknowns_dict b)) n))).
Proof.
  intros Hle. unfold state_at. replace t2 with (t1 + (t2 - t1)) at 1 by lia.
  by rewrite <- take_take_drop, foldl_app.
Qed.

Lemma state_at_le (b : board) n t1 t2 :
  wf_board b → t1 ≤ t2 → evolves (state_at b n t1) (state_at b n t2).
Proof.
  intros Hwf Hle. destruct (state_at_inv b n t1 Hwf) as [Hinv [Hk _]].
  rewrite (state_at_split b n t1 t2 Hle).
  apply run_evolves; [done|]. rewrite Hk.
  apply Forall_take, Forall_drop, schedule_keys.
Qed.

Lemma schedule_add ks m n : schedule ks (m + n) = schedule ks m ++ schedule ks n.
Proof. unfold schedule. by rewrite replicate_add, concat_app. Qed.

Lemma length_schedule ks m :
  length (schedule ks m) = m * length (round_visits ks).
Proof.
  induction m as [|m IH]; [done|].
  rewrite schedule_S, length_app, IH. lia.
Qed.

(** The instants of a run, turn by turn: after [m] whole turns and the
    first [i] visits of the next one. *)
Lemma state_at_turn (b : board) n m i :
  wf_board b → m < n →
  i ≤ length (round_visits (dict_keys (create_unknowns_dict b))) →
  state_at b n
    (m * length (round_visits (dict_keys (create_unknowns_dict b))) + i)
  = foldl visit_step (Nat.iter m round (init b))
      (take i (round_visits (dict_keys (create_unknowns_dict b)))).
Proof.
  intros Hwf Hm Hi. unfold state_at.
  replace n with (m + S (n - S m)) by lia.
  rewrite schedule_add, take_app_add' by (by rewrite length_schedule).
  rewrite foldl_app, <- (iter_round_run (init b)) by (by apply inv_init).
  f_equal. unfold schedule. simpl. by rewrite take_app_le.
Qed.

Lemma state_at_end (b : board) n t :
  wf_board b →
  length (schedule (dict_keys (create_unknowns_dict b)) n) ≤ t →
  state_at b n t = Nat.iter n round (init b).
Proof.
  intros Hwf Ht. unfold state_at. rewrite take_ge by done.
  symmetry. apply (iter_round_run (init b)). by apply inv_init.
Qed.

(** ** The loop *)

Lemma solve_loop_unfold fuel st it :
  solve_loop fuel st it =
    if has_unknown st.1 then
      match fuel with
      | 0 => None
      | S fuel' =>
          if array_equal st.1 (round st).1
          then Some (Outcome Stalled (round st).1 (round st).2 (it + 1))
          else solve_loop fuel' (round st) (it + 1)
      end
    else Some (Outcome Complete st.1 st.2 it).
Proof. by destruct fuel. Qed.

(** The loop leaves the state of some number of turns, which is the
    iteration count; after the [break] the last turn changed nothing. *)
Lemma solve_loop_iter fuel st it o :
  solve_loop fuel st it = Some o →
  ∃ n, out_iterations o = it + n ∧
       (out_board o, out_unknowns o) = Nat.iter n round st ∧
       match out_terminal o with
       | Complete => has_unknown (out_board o) = false
       | Stalled =>
           ∃ m, n = S m ∧ has_unknown (Nat.iter m round st).1 = true ∧
                out_board o = (Nat.iter m round st).1
       end.
Proof.
  revert st it. induction fuel as [|fuel IH]; intros st it;
    rewrite solve_loop_unfold; destruct (has_unknown st.1) eqn:Hu; try done.
  - intros [= <-]. exists 0. simpl. split_and!; [lia|by destruct st|done].
  - destruct (array_equal st.1 (round st).1) eqn:Heq.
    + intros [= <-]. exists 1. simpl. split_and!; [done|by destruct (round st)|].
      exists 0. split_and!; [done|done|].
      by apply bool_decide_eq_true in Heq.
    + intros (n & Hit & Hst & Hterm)%IH. exists (S n).
      rewrite Nat.iter_succ_r. split_and!; [lia|done|].
      destruct (out_terminal o); [done|].
      destruct Hterm as (m & -> & Hm1 & Hm2). exists (S m).
      by rewrite Nat.iter_succ_r.
  - intros [= <-]. exists 0. simpl. split_and!; [lia|by destruct st|done].
Qed.

Lemma solve_loop_terminates fuel st it :
  inv st → count_unknown st.1 ≤ fuel →
  ∃ o, solve_loop fuel st it = Some o ∧
       out_iterations o ≤ it + count_unknown st.1.
Proof.
  revert st it. induction fuel as [|fuel IH]; intros st it Hinv Hfuel;
    rewrite solve_loop_unfold; destruct (has_unknown st.1) eqn:Hu;
    try (eexists; split; [done|simpl; lia]).
  - apply has_unknown_count in Hu. lia.
  - apply has_unknown_count in Hu.
    destruct (round_evolves st Hinv) as [Hinv' (_ & _ & _ & Hcount)].
    destruct (array_equal st.1 (round st).1) eqn:Heq.
    + eexists; split; [done|simpl; lia].
    + destruct Hcount as [Hsame|Hless].
      { apply bool_decide_eq_false in Heq. by destruct Heq. }
      destruct (IH (round st) (it + 1) Hinv') as (o & Ho & Hit); [lia|].
      exists o. split; [done|lia].
Qed.

Lemma solve_loop_more_fuel fuel fuel' st it o :
  solve_loop fuel st it = Some o → fuel ≤ fuel' →
  solve_loop fuel' st it = Some o.
Proof.
  revert fuel' st it. induction fuel as [|fuel IH]; intros fuel' st it;
    rewrite !(solve_loop_unfold _ st); destruct (has_unknown st.1); try done.
  intros Ho Hle. destruct fuel' as [|fuel']; [lia|].
  destruct (array_equal _ _); [done|]. apply IH; [done|lia].
Qed.

Lemma solve_loop_state_at (b : board) fuel o :
  wf_board b → solve_loop fuel (init b) 0 = Some o →
  ∀ t, length (schedule (dict_keys (create_unknowns_dict b))
                 (out_iterations o)) ≤ t →
       state_at b (out_iterations o) t = (out_board o, out_unknowns o).
Proof.
  intros Hwf (n & Hit & Hst & _)%solve_loop_iter t Ht.
  simpl in Hit. subst n. rewrite Hst. by apply state_at_end.
Qed.

Lemma all_values_NoDup : NoDup all_values.
Proof. compute_done. Qed.

Lemma inv_cands_NoDup st k : inv st → NoDup (dict_item st.2 k).
Proof.
  intros [_ Hc]. unfold dict_item.
  destruct (dict_get st.2 k) as [cs|] eqn:Hget; simpl; [|constructor].
  destruct (Hc k cs Hget) as (_ & _ & Hsub & _).
  eapply sublist_NoDup; [apply all_values_NoDup|done].
Qed.

(** ** Monotonic resolution, clue preservation, monotone elimination *)

(** C5 (monotonic resolution).  Take the run of the loop on a 9x9 input
    board that ends with outcome [o] after [n] iterations.  [state_at b n t]
    is the state after the first [t] visits of that run: after [m] whole
    turns and the first [i] visits of the next turn it is what these [i]
    visits make of [m] applications of [round] to the input, and once all
    visits are done it is the final state.  For any two instants [t1 <= t2]
    of the run, in the same turn or in a later one, a cell that holds a
    symbol at [t1] holds the same symbol at [t2]. *)
Theorem monotonic_resolution (b : board) fuel o :
  wf_board b → solve_loop fuel (init b) 0 = Some o →
  let n := out_iterations o in
  let visits := round_visits (dict_keys (create_unknowns_dict b)) in
  (∀ m i, m < n → i ≤ length visits →
          state_at b n (m * length visits + i)
          = foldl visit_step (Nat.iter m round (init b)) (take i visits)) ∧
  (∀ t, n * length visits ≤ t →
        state_at b n t = (out_board o, out_unknowns o)) ∧
  ∀ t1 t2 i j,
    t1 ≤ t2 → board_get (state_at b n t1).1 i j ≠ "X" →
    board_get (state_at b n t2).1 i j = board_get (state_at b n t1).1 i j.
Proof.
  intros Hwf Ho n visits. split_and!.
  - intros m i Hm Hi. by apply state_at_turn.
  - intros t Ht. eapply solve_loop_state_at; [done..|].
    by rewrite length_schedule.
  - intros t1 t2 i j Hle. by apply (state_at_le b n t1 t2 Hwf Hle).
Qed.

Lemma monotonic_resolution_witness :
  let n := out_iterations example_outcome in
  let visits := round_visits (dict_keys (create_unknowns_dict example_puzzle)) in
  (∀ m i, m < n → i ≤ length visits →
          state_at example_puzzle n (m * length visits + i)
          = foldl visit_step (Nat.iter m round (init example_puzzle))
              (take i visits)) ∧
  (∀ t, n * length visits ≤ t →
        state_at example_puzzle n t
        = (out_board example_outcome, out_unknowns example_outcome)) ∧
  ∀ t1 t2 i j,
    t1 ≤ t2 → board_get (state_at example_puzzle n t1).1 i j ≠ "X" →
    board_get (state_at example_puzzle n t2).1 i j
    = board_get (state_at example_puzzle n t1).1 i j.
Proof.
  apply (monotonic_resolution example_puzzle 81 example_outcome).
  - split; [reflexivity|]. repeat (constructor; [reflexivity|]). constructor.
  - vm_compute. reflexivity.
Defined.

(** C10 (clue preservation).  On a 9x9 input board, every cell that holds
    a symbol in the input holds the same symbol on the board the loop ends
    with, which is the board [solve_board] returns. *)
Theorem clue_preservation (b : board) fuel o :
  wf_board b → solve_loop fuel (init b) 0 = Some o →
  (∀ i j, board_get b i j ≠ "X" →
          board_get (out_board o) i j = board_get b i j) ∧
  (∀ msg b', solve_board fuel b = Some (Ret (msg, b')) → b' = out_board o).
Proof.
  intros Hwf Ho. split.
  - destruct (solve_loop_iter _ _ _ _ Ho) as (n & _ & Hst & _).
    destruct (iter_round_evolves (init b) n (inv_init b Hwf))
      as [_ (_ & Hmono & _)].
    rewrite <- Hst in Hmono. exact Hmono.
  - intros msg b'. unfold solve_board. rewrite Ho. simpl. unfold report.
    destruct (check_solution (out_board o)) as [[]|[]]; naive_solver.
Qed.

Lemma clue_preservation_witness :
  (∀ i j, board_get example_puzzle i j ≠ "X" →
          board_get (out_board example_outcome) i j
          = board_get example_puzzle i j) ∧
  (∀ msg b', solve_board 81 example_puzzle = Some (Ret (msg, b')) →
             b' = out_board example_outcome).
Proof.
  apply (clue_preservation example_puzzle 81 example_outcome).
  - split; [reflexivity|]. repeat (constructor; [reflexivity|]). constructor.
  - vm_compute. reflexivity.
Defined.

(** C8 (monotone elimination).  In a run on a 9x9 input board, between
    any two instants [t1 <= t2] the candidates of a key only lose symbols:
    every candidate at [t2] was one at [t1], the number of candidates does
    not grow, and the candidates are without repetition, so that this
    number is the size of the set.  In particular the size does not grow
    from the end of one turn to the end of the next. *)
Theorem monotone_elimination (b : board) :
  wf_board b →
  (∀ n t1 t2 k,
     t1 ≤ t2 →
     let before := dict_item (state_at b n t1).2 k in
     let after := dict_item (state_at b n t2).2 k in
     (∀ v, v ∈ after → v ∈ before) ∧
     length after ≤ length before ∧ NoDup after) ∧
  (∀ m k,
     length (dict_item (Nat.iter (S m) round (init b)).2 k)
     ≤ length (dict_item (Nat.iter m round (init b)).2 k)).
Proof.
  intros Hwf. split.
  - intros n t1 t2 k Hle before after.
    destruct (state_at_le b n t1 t2 Hwf Hle) as (_ & _ & Hsub & _).
    specialize (Hsub k). split_and!.
    + intros v. by apply sublist_subseteq.
    + by apply sublist_length.
    + apply inv_cands_NoDup. by apply state_at_inv.
  - intros m k. simpl.
    destruct (iter_round_evolves (init b) m (inv_init b Hwf)) as [Hinv _].
    destruct (round_evolves _ Hinv) as [_ (_ & _ & Hsub & _)].
    apply sublist_length, Hsub.
Qed.

Lemma monotone_elimination_witness :
  (∀ n t1 t2 k,
     t1 ≤ t2 →
     let before := dict_item (state_at example_puzzle n t1).2 k in
     let after := dict_item (state_at example_puzzle n t2).2 k in
     (∀ v, v ∈ after → v ∈ before) ∧
     length after ≤ length before ∧ NoDup after) ∧
  (∀ m k,
     length (dict_item (Nat.iter (S m) round (init example_puzzle)).2 k)
     ≤ length (dict_item (Nat.iter m round (init example_puzzle)).2 k)).
Proof.
  apply (monotone_elimination example_puzzle).
  split; [reflexivity|]. repeat (constructor; [reflexivity|]). constructor.
Defined.

(** ** Termination *)

(** C6 (bounded rounds).  On every 9x9 input board the loop ends: with any
    bound of 81 turns or more it leaves the same outcome, after at most 81
    iterations, either [Complete] (no unknown cell is left) or [Stalled]
    (the last turn changed nothing and unknown cells remain).  The reason
    is that a turn either leaves the board as it was or lowers the number
    of unknown cells. *)
Theorem bounded_rounds (b : board) :
  wf_board b →
  ∃ o,
    (∀ fuel, 81 ≤ fuel → solve_loop fuel (init b) 0 = Some o) ∧
    out_iterations o ≤ 81 ∧
    (out_board o, out_unknowns o)
      = Nat.iter (out_iterations o) round (init b) ∧
    match out_terminal o with
    | Complete => has_unknown (out_board o) = false
    | Stalled =>
        has_unknown (out_board o) = true ∧
        ∃ m, out_iterations o = S m ∧
             out_board o = (Nat.iter m round (init b)).1
    end ∧
    ∀ n, let st := Nat.iter n round (init b) in
         (round st).1 = st.1 ∨
         count_unknown (round st).1 < count_unknown st.1.
Proof.
  intros Hwf. pose proof (inv_init b Hwf) as Hinv.
  pose proof (count_unknown_bound b Hwf) as Hcount.
  destruct (solve_loop_terminates 81 (init b) 0 Hinv Hcount) as (o & Ho & Hit).
  exists o. simpl in Hit.
  destruct (solve_loop_iter _ _ _ _ Ho) as (n & Hn & Hst & Hterm).
  simpl in Hn. subst n. split_and!.
  - intros fuel Hfuel. by eapply solve_loop_more_fuel.
  - lia.
  - done.
  - destruct (out_terminal o); [done|].
    destruct Hterm as (m & Hm & Hu & Hb). split; [by rewrite Hb|by exists m].
  - intros n st. subst st.
    destruct (iter_round_evolves (init b) n Hinv) as [Hinv' _].
    by destruct (round_evolves _ Hinv') as [_ (_ & _ & _ & ?)].
Qed.

Lemma bounded_rounds_witness :
  ∃ o,
    (∀ fuel, 81 ≤ fuel → solve_loop fuel (init example_puzzle) 0 = Some o) ∧
    out_iterations o ≤ 81 ∧
    (out_board o, out_unknowns o)
      = Nat.iter (out_iterations o) round (init example_puzzle) ∧
    match out_terminal o with
    | Complete => has_unknown (out_board o) = false
    | Stalled =>
        has_unknown (out_board o) = true ∧
        ∃ m, out_iterations o = S m ∧
             out_board o = (Nat.iter m round (init example_puzzle)).1
    end ∧
    ∀ n, let st := Nat.iter n round (init example_puzzle) in
         (round st).1 = st.1 ∨
         count_unknown (round st).1 < count_unknown st.1.
Proof.
  apply (bounded_rounds example_puzzle).
  split; [reflexivity|]. repeat (constructor; [reflexivity|]). constructor.
Defined.

(** ** The excluded values of the elimination pass *)

Lemma box_range i i' : i / 3 * 3 ≤ i' < i / 3 * 3 + 3 ↔ i' / 3 = i / 3.
Proof.
  pose proof (Nat.div_mod_eq i 3). pose proof (Nat.div_mod_eq i' 3).
  pose proof (Nat.mod_upper_bound i 3). pose proof (Nat.mod_upper_bound i' 3).
  lia.
Qed.

Lemma box_in_grid i i' : i < 9 → i' / 3 = i / 3 → i' < 9.
Proof.
  pose proof (Nat.div_mod_eq i 3). pose proof (Nat.div_mod_eq i' 3).
  pose proof (Nat.mod_upper_bound i 3). pose proof (Nat.mod_upper_bound i' 3).
  lia.
Qed.

Lemma elem_of_get_row (b : board) i x :
  wf_board b → i < 9 →
  x ∈ get_row b i ↔ x ≠ "X" ∧ ∃ j, j < 9 ∧ board_get b i j = x.
Proof.
  intros Hwf Hi. destruct (wf_board_row b i Hwf Hi) as (row & Hrow & Hlen).
  unfold get_row, board_get. rewrite (list_lookup_total_correct _ _ _ Hrow).
  rewrite list_elem_of_filter, list_elem_of_lookup_total, Hlen. done.
Qed.

Lemma elem_of_get_column (b : board) j x :
  wf_board b →
  x ∈ get_column b j ↔ x ≠ "X" ∧ ∃ i, i < 9 ∧ board_get b i j = x.
Proof.
  intros [Hlen _]. unfold get_column, board_get.
  rewrite list_elem_of_filter, list_elem_of_fmap.
  split; intros [Hx Hex]; (split; [done|]).
  - destruct Hex as (row & -> & (i & Hi & <-)%list_elem_of_lookup_total).
    exists i. split; [lia|done].
  - destruct Hex as (i & Hi & <-). exists (b !!! i). split; [done|].
    apply list_elem_of_lookup_total. exists i. split; [lia|done].
Qed.

Lemma elem_of_get_square (b : board) i j x :
  x ∈ get_square b i j ↔
  x ≠ "X" ∧ ∃ i' j', i' / 3 = i / 3 ∧ j' / 3 = j / 3 ∧ board_get b i' j' = x.
Proof.
  unfold get_square. rewrite list_elem_of_bind. split.
  - intros (i' & (j' & Hx & Hj'%elem_of_seq)%list_elem_of_bind & Hi'%elem_of_seq).
    case_decide; [|inversion Hx]. apply list_elem_of_singleton in Hx as ->.
    split; [done|]. exists i', j'. by rewrite <- !box_range.
  - intros (Hx & i' & j' & Hi' & Hj' & <-). exists i'.
    split; [|by apply elem_of_seq, box_range].
    apply list_elem_of_bind. exists j'. split; [|by apply elem_of_seq, box_range].
    rewrite decide_True by done. left.
Qed.

(** On a cell that is still unknown the values the code excludes are the
    resolved symbols of the other cells of its three groups: the scan of
    the row, the column and the box meets the cell itself, which holds
    ["X"] and is dropped with the other unknown cells. *)
Lemma impossible_values_spec (b : board) k x :
  wf_board b → in_grid k → board_get b k.1 k.2 = "X" →
  x ∈ impossible_values b k.1 k.2 ↔ spec_excluded b k x.
Proof.
  intros Hwf [Hk1 Hk2] Hk. destruct k as [i j]. simpl in *.
  unfold impossible_values, spec_excluded, in_grid, same_row, same_column,
    same_box.
  rewrite !elem_of_app, elem_of_get_row, elem_of_get_column,
    elem_of_get_square by done.
  assert (Hself : ∀ i' j', board_get b i' j' = x → x ≠ "X" → (i', j') ≠ (i, j)).
  { intros i' j' Hget Hx [= -> ->]. congruence. }
  split.
  - intros [(Hx & j' & Hj' & Hget)|[(Hx & i' & Hi' & Hget)
            |(Hx & i' & j' & Hi' & Hj' & Hget)]]; (split; [done|]).
    + exists (i, j'). simpl. split_and!; eauto.
    + exists (i', j). simpl. split_and!; eauto.
    + exists (i', j'). simpl. split_and!; eauto using box_in_grid.
  - intros (Hx & [i' j'] & [Hi' Hj'] & _ & Hgroup & Hget). simpl in *.
    destruct Hgroup as [->|[->|[Hi3 Hj3]]]; [left|right; left|right; right];
      (split; [done|]); eauto.
Qed.

(** ** The keys of the dictionary *)

Lemma create_unknowns_dict_NoDup (b : board) :
  NoDup (dict_keys (create_unknowns_dict b)).
Proof.
  unfold dict_keys. apply NoDup_fmap_fst.
  - intros k cs1 cs2 (_ & _ & _ & ->)%create_unknowns_dict_elem
      (_ & _ & _ & ->)%create_unknowns_dict_elem. done.
  - unfold create_unknowns_dict. apply NoDup_bind; [| |apply NoDup_seq].
    + intros i1 i2 y _ _ (j1 & H1 & _)%list_elem_of_bind
        (j2 & H2 & _)%list_elem_of_bind.
      repeat case_decide; try (by inversion H1); try (by inversion H2).
      apply list_elem_of_singleton in H1, H2. congruence.
    + intros i _. apply NoDup_bind; [| |apply NoDup_seq].
      * intros j1 j2 y _ _ H1 H2.
        repeat case_decide; try (by inversion H1); try (by inversion H2).
        apply list_elem_of_singleton in H1, H2. congruence.
      * intros j _. case_decide; [apply NoDup_singleton|constructor].
Qed.

Lemma NoDup_lookup_split {A} (l : list A) i x :
  NoDup l → l !! i = Some x → (x ∉ take i l) ∧ (x ∉ drop (S i) l).
Proof.
  intros Hnd Hi. rewrite <- (take_drop_middle l i x Hi) in Hnd.
  apply NoDup_app in Hnd as (_ & Hnot & Hnd).
  apply NoDup_cons in Hnd as [Hx _]. split; [|done].
  intros Hin. apply (Hnot x Hin). left.
Qed.

Lemma effect_cands_other k st st' k' :
  effect k st st' → k ≠ k' → dict_item st'.2 k' = dict_item st.2 k'.
Proof. intros [| |] Hne; simpl; [done|by rewrite dict_item_set_ne..]. Qed.

Lemma run_cands_other st vs k :
  k ∉ (visit_key <$> vs) →
  dict_item (foldl visit_step st vs).2 k = dict_item st.2 k.
Proof.
  revert st. induction vs as [|v vs IH]; intros st Hk; simpl; [done|].
  rewrite fmap_cons, not_elem_of_cons in Hk. destruct Hk as [Hv Hk].
  rewrite IH by done.
  eapply effect_cands_other; [apply visit_step_effect|done].
Qed.

Lemma visit_key_Elim (ks : list key) : visit_key <$> (Elim <$> ks) = ks.
Proof. induction ks as [|k ks IH]; simpl; [done|by f_equal]. Qed.

Lemma visit_key_Hidden (ks : list key) : visit_key <$> (Hidden <$> ks) = ks.
Proof. induction ks as [|k ks IH]; simpl; [done|by f_equal]. Qed.

Lemma fold_elim_cands_other st ks k :
  k ∉ ks → dict_item (foldl elim_step st ks).2 k = dict_item st.2 k.
Proof.
  intros Hk.
  assert (foldl elim_step st ks = foldl visit_step st (Elim <$> ks)) as ->
    by (by rewrite foldl_fmap).
  apply run_cands_other. by rewrite visit_key_Elim.
Qed.

Lemma fold_hidden_cands_other st ks k :
  k ∉ ks → dict_item (foldl hidden_step st ks).2 k = dict_item st.2 k.
Proof.
  intros Hk.
  assert (foldl hidden_step st ks = foldl visit_step st (Hidden <$> ks)) as ->
    by (by rewrite foldl_fmap).
  apply run_cands_other. by rewrite visit_key_Hidden.
Qed.

Lemma fold_elim_evolves st ks :
  inv st → ks ⊆ dict_keys st.2 →
  inv (foldl elim_step st ks) ∧ evolves st (foldl elim_step st ks).
Proof.
  intros Hinv Hks.
  assert (foldl elim_step st ks = foldl visit_step st (Elim <$> ks)) as ->
    by (by rewrite foldl_fmap).
  apply run_evolves; [done|]. apply Forall_fmap, Forall_forall. intros k Hk.
  by apply Hks.
Qed.

Lemma fold_hidden_evolves st ks :
  inv st → ks ⊆ dict_keys st.2 →
  inv (foldl hidden_step st ks) ∧ evolves st (foldl hidden_step st ks).
Proof.
  intros Hinv Hks.
  assert (foldl hidden_step st ks = foldl visit_step st (Hidden <$> ks)) as ->
    by (by rewrite foldl_fmap).
  apply run_evolves; [done|]. apply Forall_fmap, Forall_forall. intros k Hk.
  by apply Hks.
Qed.

Lemma iter_round_keys (b : board) n :
  wf_board b →
  inv (Nat.iter n round (init b)) ∧
  NoDup (dict_keys (Nat.iter n round (init b)).2).
Proof.
  intros Hwf.
  destruct (iter_round_evolves (init b) n (inv_init b Hwf)) as [Hinv [Hk _]].
  split; [done|]. rewrite Hk. apply create_unknowns_dict_NoDup.
Qed.

Lemma take_subseteq {A} (l : list A) n : take n l ⊆ l.
Proof. intros x Hx. rewrite <- (take_drop n l). apply elem_of_app. by left. Qed.

(** ** The elimination pass *)



(** ** The hidden-single pass *)

Lemma elem_of_concat {A} (x : A) (ls : list (list A)) :
  x ∈ concat ls ↔ ∃ l, l ∈ ls ∧ x ∈ l.
Proof.
  induction ls as [|l ls IH]; simpl.
  - split; [intros H; inversion H|intros (l & H & _); inversion H].
  - rewrite elem_of_app, IH. split.
    + intros [Hx|(l' & Hl' & Hx)]; [exists l|exists l']; split; try done;
        [left|by right].
    + intros (l' & [->|Hl']%elem_of_cons & Hx); [by left|right; eauto].
Qed.

Lemma dict_item_elem_of (u : unknowns) k :
  k ∈ dict_keys u → (k, dict_item u k) ∈ u.
Proof.
  intros [cs Hcs]%dict_get_keys. unfold dict_item. rewrite Hcs. simpl.
  by apply dict_get_elem_of.
Qed.

Lemma elem_of_dict_item (u : unknowns) k cs :
  NoDup (dict_keys u) → (k, cs) ∈ u → k ∈ dict_keys u ∧ dict_item u k = cs.
Proof.
  intros Hnd Hin. pose proof (dict_get_NoDup u k cs Hnd Hin) as Hget. split.
  - apply dict_get_keys. by rewrite Hget.
  - unfold dict_item. by rewrite Hget.
Qed.

Lemma others_in_row_spec (u : unknowns) k v :
  NoDup (dict_keys u) →
  v ∉ concat (others_in_row k u) ↔ spec_absent same_row u k v.
Proof.
  intros Hnd. unfold others_in_row, spec_absent, same_row.
  rewrite elem_of_concat. split.
  - intros Hnot k' Hk' Hne Hrow Hv. apply Hnot. exists (dict_item u k').
    split; [|done]. apply list_elem_of_fmap. exists (k', dict_item u k').
    split; [done|]. apply list_elem_of_filter. split; [done|].
    by apply dict_item_elem_of.
  - intros Habs (cs & ([k' cs'] & -> & [[Hrow Hne] Hin]%list_elem_of_filter)
                       %list_elem_of_fmap & Hv). simpl in *.
    destruct (elem_of_dict_item u k' cs' Hnd Hin) as [Hk' <-].
    by apply (Habs k').
Qed.

Lemma others_in_column_spec (u : unknowns) k v :
  NoDup (dict_keys u) →
  v ∉ concat (others_in_column k u) ↔ spec_absent same_column u k v.
Proof.
  intros Hnd. unfold others_in_column, spec_absent, same_column.
  rewrite elem_of_concat. split.
  - intros Hnot k' Hk' Hne Hcol Hv. apply Hnot. exists (dict_item u k').
    split; [|done]. apply list_elem_of_fmap. exists (k', dict_item u k').
    split; [done|]. apply list_elem_of_filter. split; [done|].
    by apply dict_item_elem_of.
  - intros Habs (cs & ([k' cs'] & -> & [[Hcol Hne] Hin]%list_elem_of_filter)
                       %list_elem_of_fmap & Hv). simpl in *.
    destruct (elem_of_dict_item u k' cs' Hnd Hin) as [Hk' <-].
    by apply (Habs k').
Qed.

Lemma others_in_square_spec (u : unknowns) k v :
  v ∉ concat (others_in_square k u) ↔ spec_absent same_box u k v.
Proof.
  unfold others_in_square, spec_absent, same_box.
  rewrite elem_of_concat. split.
  - intros Hnot [i' j'] Hk' Hne [Hi Hj] Hv. simpl in Hi, Hj. apply Hnot.
    exists (dict_item u (i', j')). split; [|done].
    apply box_range in Hi, Hj.
    apply list_elem_of_bind. exists (i' - k.1 / 3 * 3).
    split; [|apply elem_of_seq; lia].
    apply list_elem_of_bind. exists (j' - k.2 / 3 * 3).
    split; [|apply elem_of_seq; lia].
    replace (k.1 / 3 * 3 + (i' - k.1 / 3 * 3)) with i' by lia.
    replace (k.2 / 3 * 3 + (j' - k.2 / 3 * 3)) with j' by lia.
    rewrite decide_True by done. left.
  - intros Habs (cs & (i & (j & Hcs & Hj%elem_of_seq)%list_elem_of_bind
                         & Hi%elem_of_seq)%list_elem_of_bind & Hv).
    case_decide as Hne; [|inversion Hcs].
    apply list_elem_of_singleton in Hcs as ->.
    destruct (decide ((k.1 / 3 * 3 + i, k.2 / 3 * 3 + j) ∈ dict_keys u))
      as [Hk'|Hk'].
    + apply (Habs _ Hk' Hne); [|done]. cbn [fst snd].
      rewrite <- !box_range. lia.
    + unfold dict_item in Hv. destruct (dict_get u _) as [cs|] eqn:Hget.
      * apply Hk', dict_get_keys. by rewrite Hget.
      * inversion Hv.
Qed.

(** The test of the code is the rule of the specification. *)
Lemma check_only_possible_location_spec (u : unknowns) k v :
  NoDup (dict_keys u) →
  check_only_possible_location k v u = true ↔ spec_forced u k v.
Proof.
  intros Hnd. unfold check_only_possible_location, spec_forced.
  rewrite !orb_true_iff, !bool_decide_eq_true.
  rewrite others_in_row_spec, others_in_column_spec, others_in_square_spec
    by done. tauto.
Qed.

(** C2 (hidden-single pass).  Take the second [for] loop of any turn of a
    run on a 9x9 board, and the visit of the [i]-th key [k]: [before] is
    the state the visit finds and [after] the state it leaves; the
    candidates the visit finds for [k] are those the elimination pass of the
    same turn left.  The test made on a candidate [v] holds exactly when [v] is a candidate of no other
    tracked cell of the row of [k], or of none of its column, or of none of
    its box.  The candidates of [k] are tried in order: either none passes
    the test and the visit changes nothing, or the first that passes is
    written on the board and becomes the only candidate of [k], the
    candidates after it being left untried. *)
Theorem hidden_single_pass (b : board) n i k :
  wf_board b →
  let st := elim_pass (Nat.iter n round (init b)) in
  dict_keys st.2 !! i = Some k →
  let before := foldl hidden_step st (take i (dict_keys st.2)) in
  let after := foldl hidden_step st (take (S i) (dict_keys st.2)) in
  after = hidden_step before k ∧
  hidden_pass st = foldl hidden_step after (drop (S i) (dict_keys st.2)) ∧
  dict_item before.2 k = dict_item st.2 k ∧
  (∀ v, check_only_possible_location k v before.2 = true
        ↔ spec_forced before.2 k v) ∧
  ((after = before ∧
    ∀ v, v ∈ dict_item before.2 k → ¬ spec_forced before.2 k v)
   ∨ ∃ l1 v l2,
       dict_item before.2 k = l1 ++ v :: l2 ∧
       (∀ w, w ∈ l1 → ¬ spec_forced before.2 k w) ∧
       spec_forced before.2 k v ∧
       after = (board_set before.1 k.1 k.2 v, dict_set before.2 k [v]) ∧
       board_get after.1 k.1 k.2 = v ∧
       dict_item after.2 k = [v]).
Proof.
  intros Hwf st Hi before after.
  destruct (iter_round_keys b n Hwf) as [Hinv0 Hnd0].
  destruct (elim_pass_evolves _ Hinv0) as [Hinv [Hkeys _]].
  fold st in Hinv, Hkeys. rewrite <- Hkeys in Hnd0.
  destruct (fold_hidden_evolves st (take i (dict_keys st.2)) Hinv
              (take_subseteq _ _)) as [Hinvb [Hkb _]]. fold before in Hinvb, Hkb.
  assert (Hndb : NoDup (dict_keys before.2)) by (by rewrite Hkb).
  assert (Hk : k ∈ dict_keys before.2).
  { rewrite Hkb. by eapply list_elem_of_lookup_2. }
  destruct (inv_key_cands before k Hinvb Hk) as [_ (Hk1 & Hk2 & _)].
  assert (Hafter : after = hidden_step before k).
  { unfold after, before. rewrite (take_S_r _ _ _ Hi). apply foldl_snoc. }
  assert (Hspec : ∀ v, check_only_possible_location k v before.2 = true
                       ↔ spec_forced before.2 k v).
  { intros v. by apply check_only_possible_location_spec. }
  split_and!; [done| | |done|].
  - unfold hidden_pass, for_keys, after. rewrite <- foldl_app.
    by rewrite take_drop.
  - apply fold_hidden_cands_other.
    by destruct (NoDup_lookup_split _ _ _ Hnd0 Hi).
  - rewrite Hafter. unfold hidden_step.
    destruct (try_values_cases k (dict_item before.2 k) before)
      as [[Heq Hnone]|(l1 & v & l2 & Hcs & Hl1 & Hv & Heq)].
    + left. split; [done|]. intros v Hv Hf%Hspec.
      rewrite (Hnone v Hv) in Hf. done.
    + right. exists l1, v, l2. rewrite Heq. simpl. split_and!; [done| | |done| |].
      * intros w Hw Hf%Hspec. rewrite (Hl1 w Hw) in Hf. done.
      * by apply Hspec.
      * apply board_get_set_eq; [apply Hinvb|done..].
      * apply dict_item_set_eq.
Qed.

Lemma hidden_single_pass_witness :
  let st := elim_pass (Nat.iter 0 round (init example_puzzle)) in
  let k := (0, 7) in
  let before := foldl hidden_step st (take 4 (dict_keys st.2)) in
  let after := foldl hidden_step st (take 5 (dict_keys st.2)) in
  after = hidden_step before k ∧
  hidden_pass st = foldl hidden_step after (drop 5 (dict_keys st.2)) ∧
  dict_item before.2 k = dict_item st.2 k ∧
  (∀ v, check_only_possible_location k v before.2 = true
        ↔ spec_forced before.2 k v) ∧
  ((after = before ∧
    ∀ v, v ∈ dict_item before.2 k → ¬ spec_forced before.2 k v)
   ∨ ∃ l1 v l2,
       dict_item before.2 k = l1 ++ v :: l2 ∧
       (∀ w, w ∈ l1 → ¬ spec_forced before.2 k w) ∧
       spec_forced before.2 k v ∧
       after = (board_set before.1 k.1 k.2 v, dict_set before.2 k [v]) ∧
       board_get after.1 k.1 k.2 = v ∧
       dict_item after.2 k = [v]).
Proof.
  apply (hidden_single_pass example_puzzle 0 4 (0, 7)).
  - split; [reflexivity|]. repeat (constructor; [reflexivity|]). constructor.
  - vm_compute. reflexivity.
Defined.

(** ** The verifier *)

Ltac destruct_board Hwf b :=
  let Hlen := fresh "Hlen" in
  let Hrows := fresh "Hrows" in
  destruct Hwf as [Hlen Hrows];
  do 10 (destruct b as [|? b]; try discriminate Hlen);
  repeat match goal with
         | H : Forall _ (_ :: _) |- _ => apply Forall_cons in H as [? H]
         end;
  repeat match goal with
         | H : length ?r = 9 |- _ =>
             do 10 (destruct r as [|? r]; try discriminate H); clear H
         end.

Lemma wf_concat (b : board) : wf_board b → concat b = values_at b all_cells.
Proof. intros Hwf. destruct_board Hwf b. reflexivity. Qed.

Lemma wf_groups (b : board) :
  wf_board b → b ++ columns b ++ blocks b = values_at b <$> all_groups.
Proof. intros Hwf. destruct_board Hwf b. reflexivity. Qed.

Lemma all_groups_shape : Forall (λ g, length g = 9 ∧ NoDup g) all_groups.
Proof. compute_done. Qed.

Lemma length_remove_dups_le (l : list cell) : length (remove_dups l) ≤ length l.
Proof. induction l as [|x l IH]; simpl; [done|]. case_decide; simpl; lia. Qed.

Lemma len_set_NoDup (l : list cell) : len_set l = length l ↔ NoDup l.
Proof.
  unfold len_set. induction l as [|x l IH]; simpl.
  - split; [constructor|done].
  - pose proof (length_remove_dups_le l).
    rewrite NoDup_cons. case_decide; simpl.
    + split; [lia|tauto].
    + rewrite <- IH. split; [intros [=]; done|intros [_ ->]; done].
Qed.

Lemma NoDup_values_at (b : board) g :
  NoDup g → NoDup (values_at b g) ↔ distinct_on b g.
Proof.
  unfold values_at, distinct_on. induction 1 as [|k g Hk Hg IH]; simpl.
  - split; [intros _ k1 k2 Hk1; inversion Hk1|constructor].
  - rewrite NoDup_cons, IH, list_elem_of_fmap. split.
    + intros [Hnot Hd] k1 k2 [->|H1]%elem_of_cons [->|H2]%elem_of_cons Hne;
        [done| | |by apply Hd].
      * intros Heq. apply Hnot. by exists k2.
      * intros Heq. apply Hnot. by exists k1.
    + intros Hd. split.
      * intros (k' & Heq & Hk'). apply (Hd k k'); [left|by right| |done].
        by intros ->.
      * intros k1 k2 H1 H2. apply Hd; by right.
Qed.

Lemma forallb_bool_decide {A} (P : A → Prop) `{!∀ x, Decision (P x)} l :
  forallb (λ x, bool_decide (P x)) l = true ↔ Forall P l.
Proof.
  induction l as [|x l IH]; simpl; [by split|].
  rewrite andb_true_iff, bool_decide_eq_true, IH, Forall_cons. done.
Qed.

(** The three distinctness assertions, taken together, against the groups. *)
Lemma groups_checked (b : board) :
  wf_board b →
  (forallb (λ row, bool_decide (len_set row = 9)) b = true ∧
   forallb (λ column, bool_decide (len_set column = 9)) (columns b) = true ∧
   forallb (λ sq, bool_decide (len_set sq = 9)) (blocks b) = true)
  ↔ ∀ g, g ∈ all_groups → distinct_on b g.
Proof.
  intros Hwf. rewrite !forallb_bool_decide, <- !Forall_app, wf_groups by done.
  rewrite Forall_fmap, Forall_forall.
  pose proof all_groups_shape as Hshape. rewrite Forall_forall in Hshape.
  split; intros H g Hg; destruct (Hshape g Hg) as [Hlen Hnd];
    specialize (H g Hg); simpl in *.
  - apply NoDup_values_at; [done|]. apply len_set_NoDup.
    unfold values_at. by rewrite length_fmap, Hlen.
  - apply NoDup_values_at, len_set_NoDup in H; [|done].
    rewrite H. unfold values_at. by rewrite length_fmap.
Qed.

Lemma res_map_Ret {A B} (f : A → res B) (g : A → B) (l : list A) ys :
  (∀ x y, f x = Ret y → y = g x) →
  res_map f l = Ret ys ↔ ys = g <$> l ∧ Forall (λ x, f x = Ret (g x)) l.
Proof.
  intros Hg. revert ys. induction l as [|x l IH]; intros ys; simpl.
  - split; [intros [= <-]; by split|intros [-> _]; done].
  - unfold mbind, res_bind. destruct (f x) as [y|e] eqn:Hfx.
    + pose proof (Hg x y Hfx) as ->.
      destruct (res_map f l) as [ys'|e] eqn:Hl.
      * destruct (IH ys') as [IH1 _]. destruct (IH1 eq_refl) as [-> Hall].
        split; [intros [= <-]; split; [done|by constructor]|by intros [-> _]].
      * split; [done|]. intros [-> [_ Hall]%Forall_cons].
        destruct (IH (g <$> l)) as [_ IH2].
        specialize (IH2 (conj eq_refl Hall)). congruence.
    + split; [done|]. intros [_ [Hx _]%Forall_cons]. congruence.
Qed.

Lemma to_int64_Ret c z : to_int64 c = Ret z → z = int_value c.
Proof.
  unfold to_int64, int_value. destruct (py_int c) as [z'|]; [|done].
  case_bool_decide; [|done]. by intros [= <-].
Qed.

Lemma to_int64_value c : to_int64 c = Ret (int_value c) ↔ convertible c.
Proof.
  unfold to_int64, int_value, convertible. destruct (py_int c) as [z|]; simpl.
  - by case_bool_decide.
  - done.
Qed.

Lemma astype_int_Ret (b : board) m :
  astype_int b = Ret m ↔
  m = (λ row : list cell, int_value <$> row) <$> b ∧
  Forall (λ c, to_int64 c = Ret (int_value c)) (concat b).
Proof.
  unfold astype_int.
  rewrite (res_map_Ret (res_map to_int64) (λ row, int_value <$> row)).
  - rewrite Forall_concat. apply and_iff_compat_l.
    apply Forall_iff. intros row.
    rewrite (res_map_Ret to_int64 int_value); [|apply to_int64_Ret].
    split; [by intros [_ ?]|by split].
  - intros row ys. rewrite (res_map_Ret to_int64 int_value); [|apply to_int64_Ret].
    by intros [-> _].
Qed.

Lemma concat_fmap_fmap {A B} (f : A → B) (ls : list (list A)) :
  concat ((λ l : list A, f <$> l) <$> ls) = f <$> concat ls.
Proof.
  induction ls as [|l ls IH]; simpl; [done|]. rewrite fmap_app. f_equal.
  exact IH.
Qed.

Ltac raise_side :=
  simpl; split; [discriminate|];
  intros; repeat match goal with
                 | H : _ ∧ _ |- _ => destruct H
                 | H : ∃ _, _ |- _ => destruct H
                 end; congruence.

Lemma check_solution_Ret (b : board) :
  check_solution b = Ret tt ↔
  (forallb (λ row, bool_decide (len_set row = 9)) b = true ∧
   forallb (λ column, bool_decide (len_set column = 9)) (columns b) = true ∧
   forallb (λ sq, bool_decide (len_set sq = 9)) (blocks b) = true) ∧
  forallb (λ x, bool_decide (x ≠ "X")) (concat b) = true ∧
  ∃ m, astype_int b = Ret m ∧
       forallb (λ z : Z, bool_decide (z ≤ 9)%Z) (concat m) = true ∧
       forallb (λ z : Z, bool_decide (1 ≤ z)%Z) (concat m) = true ∧
       sum_all m = 405%Z.
Proof.
  unfold check_solution, mbind, res_bind, assert.
  destruct (forallb _ b); [|raise_side].
  destruct (forallb _ (columns b)); [|raise_side].
  destruct (forallb _ (blocks b)); [|raise_side].
  destruct (forallb _ (concat b)); [|raise_side].
  destruct (astype_int b) as [m|e]; [|raise_side].
  destruct (forallb (λ z : Z, bool_decide (z ≤ 9)%Z) (concat m)) eqn:Hle;
    simpl; [|raise_side].
  destruct (forallb (λ z : Z, bool_decide (1 ≤ z)%Z) (concat m)) eqn:Hge;
    simpl; [|raise_side].
  case_bool_decide as Hsum; [|raise_side].
  simpl. split; [intros _|done]. split_and!; try done. by exists m.
Qed.



(** ** The final report *)

Lemma all_values_convertible v : v ∈ all_values → convertible v.
Proof.
  unfold all_values, convertible. intros H.
  repeat (apply elem_of_cons in H as [->|H];
          [destruct (py_int _) as [z|] eqn:E; vm_compute in E;
           [injection E as <-; lia|discriminate E]|]).
  inversion H.
Qed.

Lemma elem_of_all_cells k : k ∈ all_cells ↔ in_grid k.
Proof.
  unfold all_cells, in_grid. rewrite list_elem_of_bind. split.
  - intros (i & (j & ->%list_elem_of_singleton & Hj%elem_of_seq)%list_elem_of_bind
              & Hi%elem_of_seq). simpl. lia.
  - destruct k as [i j]. intros [Hi Hj]. simpl in Hi, Hj.
    exists i. split; [|apply elem_of_seq; lia].
    apply list_elem_of_bind. exists j. split; [left|apply elem_of_seq; lia].
Qed.

Lemma grid_tokens_evolves (b : board) st :
  grid_tokens b → inv st → evolves (init b) st → grid_tokens st.1.
Proof.
  unfold grid_tokens. rewrite !Forall_forall.
  intros Htok [_ Hc] (Hkeys & Hmono & _) [i j] Hk. simpl in *.
  specialize (Htok (i, j) Hk). apply elem_of_all_cells in Hk as [Hi Hj].
  simpl in *. destruct (decide (board_get b i j = "X")) as [Hx|Hx].
  - assert (Hk : (i, j) ∈ dict_keys st.2).
    { rewrite Hkeys. unfold dict_keys. apply list_elem_of_fmap.
      exists ((i, j), all_values). split; [done|].
      by apply create_unknowns_dict_elem. }
    apply dict_get_keys in Hk as [cs Hcs].
    destruct (Hc _ _ Hcs) as (_ & _ & _ & [Hv|Hv]%elem_of_cons & _);
      simpl in Hv.
    + by left.
    + right. by apply all_values_convertible.
  - rewrite (Hmono i j Hx). destruct Htok; [done|by right].
Qed.

Lemma check_solution_no_crash (b : board) :
  wf_board b → grid_tokens b →
  check_solution b = Ret tt ∨ check_solution b = Raise AssertionError.
Proof.
  intros Hwf Htok. unfold check_solution, mbind, res_bind, assert.
  destruct (forallb _ b); [|by right].
  destruct (forallb _ (columns b)); [|by right].
  destruct (forallb _ (blocks b)); [|by right].
  destruct (forallb (λ x, bool_decide (x ≠ "X")) (concat b)) eqn:Hx;
    [|by right].
  assert (Hm : astype_int b
               = Ret ((λ row : list cell, int_value <$> row) <$> b)).
  { apply astype_int_Ret. split; [done|].
    apply forallb_bool_decide in Hx. rewrite (wf_concat b Hwf) in Hx |- *.
    unfold values_at in *. rewrite Forall_fmap, Forall_forall in Hx |- *.
    intros k Hk. specialize (Hx k Hk). simpl in *.
    unfold grid_tokens in Htok. rewrite Forall_forall in Htok.
    apply to_int64_value. by destruct (Htok k Hk). }
  rewrite Hm.
  destruct (forallb _ _ && forallb _ _); simpl; [|by right].
  case_bool_decide; [by left|by right].
Qed.

Lemma messages_differ n n' : solved_message n ≠ not_solved_message n'.
Proof. unfold solved_message, not_solved_message. simpl. discriminate. Qed.



(** ** Resolved cells and emptied candidates *)

Lemma own_value_impossible (b : board) i j :
  wf_board b → i < 9 → j < 9 → board_get b i j ≠ "X" →
  board_get b i j ∈ impossible_values b i j.
Proof.
  intros Hwf Hi Hj Hx. unfold impossible_values. apply elem_of_app. left.
  apply elem_of_get_row; [done..|]. split; [done|]. by exists j.
Qed.

Lemma effect_resolved k st st' :
  inv st → k ∈ dict_keys st.2 → effect k st st' →
  board_get st.1 k.1 k.2 ≠ "X" → st'.1 = st.1.
Proof.
  intros Hinv Hk [| |v Hv] Hx; simpl; [done..|].
  destruct (commit_value st k v Hinv Hk Hv) as (_ & _ & _ & [?|<-]); [done|].
  apply board_set_same.
Qed.

Lemma elim_step_resolved st k :
  inv st → k ∈ dict_keys st.2 → board_get st.1 k.1 k.2 ≠ "X" →
  dict_item (elim_step st k).2 k = [].
Proof.
  intros Hinv Hk Hx.
  destruct (inv_key_cands st k Hinv Hk) as [_ (Hk1 & Hk2 & _ & _ & Hm)].
  destruct st as [b u]. rewrite elim_step_eq. simpl in *.
  rewrite dict_item_set_eq. unfold remove_impossible_values.
  destruct (dict_item u k) as [|v [|w cs]]; [done| |done].
  subst v. rewrite filter_cons_False; [done|].
  intros Hnot. apply Hnot, own_value_impossible; [apply Hinv|done..].
Qed.

Lemma effect_stuck k' st st' k :
  effect k' st st' →
  board_get st.1 k.1 k.2 = "X" → dict_item st.2 k = [] →
  board_get st'.1 k.1 k.2 = "X" ∧ dict_item st'.2 k = [].
Proof.
  intros Heff Hx Hcs. destruct (decide (k' = k)) as [->|Hne].
  - destruct Heff as [|cs' Hsub _|v Hv]; simpl; [done| |].
    + rewrite Hcs in Hsub. apply sublist_nil_r in Hsub as ->.
      by rewrite dict_item_set_eq.
    + rewrite Hcs in Hv. inversion Hv.
  - rewrite (effect_cands_other _ _ _ _ Heff Hne). split; [|done].
    rewrite (effect_board_other k' st st' k.1 k.2 Heff); [done|].
    destruct k. simpl. congruence.
Qed.

Lemma run_stuck st vs k :
  board_get st.1 k.1 k.2 = "X" → dict_item st.2 k = [] →
  board_get (foldl visit_step st vs).1 k.1 k.2 = "X" ∧
  dict_item (foldl visit_step st vs).2 k = [].
Proof.
  revert st. induction vs as [|v vs IH]; intros st Hx Hcs; simpl; [done|].
  destruct (effect_stuck _ _ _ k (visit_step_effect st v) Hx Hcs) as [Hx' Hcs'].
  by apply IH.
Qed.

Lemma board_get_concat (b : board) i j :
  wf_board b → i < 9 → j < 9 → board_get b i j ∈ concat b.
Proof.
  intros Hwf Hi Hj. rewrite (wf_concat b Hwf). unfold values_at.
  apply list_elem_of_fmap. exists (i, j). split; [done|].
  by apply elem_of_all_cells.
Qed.

Lemma check_solution_unknown (b : board) :
  "X" ∈ concat b → check_solution b = Raise AssertionError.
Proof.
  intros Hx. unfold check_solution, mbind, res_bind, assert.
  destruct (forallb _ b); [|done].
  destruct (forallb _ (columns b)); [|done].
  destruct (forallb _ (blocks b)); [|done].
  destruct (forallb (λ x, bool_decide (x ≠ "X")) (concat b)) eqn:Hnx; [|done].
  apply forallb_bool_decide in Hnx. rewrite Forall_forall in Hnx.
  by destruct (Hnx "X" Hx).
Qed.

(** C3, as the specification states it, fails: a resolved cell is not
    taken out of the dictionary.  On [contradictory_puzzle] the first turn
    resolves the cell (8, 0) to ["3"] and leaves (0, 8) unknown, so a second
    turn follows.  When it begins (8, 0) is still a key, both [for] loops of
    that turn visit it, and the visit of the first loop replaces its
    candidates [["3"]] by the empty list. *)
Lemma resolved_cell_still_visited :
  let st1 := round (init contradictory_puzzle) in
  has_unknown st1.1 = true ∧
  array_equal contradictory_puzzle st1.1 = false ∧
  board_get contradictory_puzzle 8 0 = "X" ∧
  board_get st1.1 8 0 = "3" ∧
  (8, 0) ∈ dict_keys st1.2 ∧
  Elim (8, 0) ∈ round_visits (dict_keys st1.2) ∧
  Hidden (8, 0) ∈ round_visits (dict_keys st1.2) ∧
  dict_item st1.2 (8, 0) = ["3"] ∧
  dict_item (elim_pass st1).2 (8, 0) = [] ∧
  solve_loop 81 (init contradictory_puzzle) 0 = Some contradictory_outcome.
Proof. intros st1. subst st1. split_and!; compute_done. Qed.

(** C3, amended.  In a run on a 9x9 board the keys of the dictionary never
    change: at every instant they are the cells that are unknown in the
    input, so both passes of every turn visit a resolved cell again.  These
    visits leave the board as it is, and the visit of the elimination pass
    leaves the resolved cell without candidates. *)
Theorem resolved_cells_stay_tracked (b : board) n t :
  wf_board b →
  let st := state_at b n t in
  dict_keys st.2 = dict_keys (create_unknowns_dict b) ∧
  (∀ k, k ∈ dict_keys st.2 ↔ in_grid k ∧ board_get b k.1 k.2 = "X") ∧
  (∀ k, k ∈ dict_keys st.2 → board_get st.1 k.1 k.2 ≠ "X" →
        (elim_step st k).1 = st.1 ∧
        dict_item (elim_step st k).2 k = [] ∧
        (hidden_step st k).1 = st.1).
Proof.
  intros Hwf st. destruct (state_at_inv b n t Hwf) as [Hinv [Hkeys _]].
  fold st in Hinv, Hkeys. split_and!; [done| |].
  - intros k. rewrite Hkeys. unfold dict_keys, in_grid.
    rewrite list_elem_of_fmap. split.
    + intros ([k' cs] & -> & Hin%create_unknowns_dict_elem). simpl. tauto.
    + intros [[Hk1 Hk2] Hx]. exists (k, all_values). split; [done|].
      by apply create_unknowns_dict_elem.
  - intros k Hk Hx. split_and!.
    + by apply (effect_resolved k st _ Hinv Hk (elim_step_effect st k)).
    + by apply elim_step_resolved.
    + by apply (effect_resolved k st _ Hinv Hk (hidden_step_effect st k)).
Qed.

Lemma resolved_cells_stay_tracked_witness :
  let st := state_at example_puzzle 3 200 in
  dict_keys st.2 = dict_keys (create_unknowns_dict example_puzzle) ∧
  (∀ k, k ∈ dict_keys st.2 ↔
        in_grid k ∧ board_get example_puzzle k.1 k.2 = "X") ∧
  (∀ k, k ∈ dict_keys st.2 → board_get st.1 k.1 k.2 ≠ "X" →
        (elim_step st k).1 = st.1 ∧
        dict_item (elim_step st k).2 k = [] ∧
        (hidden_step st k).1 = st.1).
Proof.
  apply (resolved_cells_stay_tracked example_puzzle 3 200).
  split; [reflexivity|]. repeat (constructor; [reflexivity|]). constructor.
Defined.

(** C4, as the specification states it, fails: the program has no
    unsatisfiable outcome.  On [contradictory_puzzle] the first pass leaves
    the unknown cell (0, 8) without candidates; the loop does not stop
    there: it resolves row 8, runs a second turn and stops by its [break],
    and the program prints the NOT SOLVED line, as it does on
    [blank_puzzle], where the loop merely stalls. *)
Lemma empty_candidates_not_reported :
  board_get contradictory_puzzle 0 8 = "X" ∧
  elim_step (init contradictory_puzzle) (0, 8)
  = (contradictory_puzzle,
     dict_set (create_unknowns_dict contradictory_puzzle) (0, 8) []) ∧
  dict_item (elim_pass (init contradictory_puzzle)).2 (0, 8) = [] ∧
  solve_loop 81 (init contradictory_puzzle) 0 = Some contradictory_outcome ∧
  solve_board 81 contradictory_puzzle
  = Some (Ret ("NOT SOLVED! (in 2 iterations)", contradictory_result)) ∧
  solve_board 81 blank_puzzle
  = Some (Ret ("NOT SOLVED! (in 1 iterations)", blank_puzzle)).
Proof. split_and!; vm_compute; reflexivity. Qed.

(** C4, amended.  Take a run on a 9x9 board that ends with outcome [o].
    If at some instant of the run an unknown cell has no candidate left,
    the loop does not abort: the cell stays unknown and without candidates
    to the end, the loop is left by its [break] ([Stalled]), and the program
    prints the NOT SOLVED line with the iteration count, as after any other
    stall. *)
Theorem empty_candidates_stall (b : board) fuel o :
  wf_board b → solve_loop fuel (init b) 0 = Some o →
  ∀ t k,
    k ∈ dict_keys (create_unknowns_dict b) →
    board_get (state_at b (out_iterations o) t).1 k.1 k.2 = "X" →
    dict_item (state_at b (out_iterations o) t).2 k = [] →
    out_terminal o = Stalled ∧
    board_get (out_board o) k.1 k.2 = "X" ∧
    dict_item (out_unknowns o) k = [] ∧
    solve_board fuel b
    = Some (Ret (not_solved_message (out_iterations o), out_board o)).
Proof.
  intros Hwf Ho t k Hk Hx Hcs.
  set (n := out_iterations o) in *.
  set (T := length (schedule (dict_keys (create_unknowns_dict b)) n)).
  pose proof (solve_loop_state_at b fuel o Hwf Ho (max t T)) as Hend.
  fold n in Hend. rewrite (state_at_split b n t (max t T)) in Hend by lia.
  destruct (run_stuck (state_at b n t)
              (take (max t T - t)
                 (drop t (schedule (dict_keys (create_unknowns_dict b)) n)))
              k Hx Hcs) as [Hx' Hcs'].
  rewrite Hend in Hx', Hcs' by (unfold T; lia). simpl in Hx', Hcs'.
  assert (Hin : "X" ∈ concat (out_board o)).
  { apply dict_get_keys in Hk as [cs Hget%dict_get_elem_of].
    apply create_unknowns_dict_elem in Hget as (Hk1 & Hk2 & _).
    rewrite <- Hx'. apply board_get_concat; [|done..].
    destruct (solve_loop_iter _ _ _ _ Ho) as (m & _ & Hst & _).
    destruct (iter_round_evolves (init b) m (inv_init b Hwf)) as [[Hwf' _] _].
    by rewrite <- Hst in Hwf'. }
  split_and!; [|done|done|].
  - destruct (solve_loop_iter _ _ _ _ Ho) as (m & _ & _ & Hterm).
    destruct (out_terminal o); [|done].
    unfold has_unknown in Hterm. by apply bool_decide_eq_false in Hterm.
  - unfold solve_board. rewrite Ho. simpl. unfold report.
    by rewrite (check_solution_unknown _ Hin).
Qed.

Lemma empty_candidates_stall_witness :
  let o := contradictory_outcome in
  out_terminal o = Stalled ∧
  board_get (out_board o) 0 8 = "X" ∧
  dict_item (out_unknowns o) (0, 8) = [] ∧
  solve_board 81 contradictory_puzzle
  = Some (Ret (not_solved_message (out_iterations o), out_board o)).
Proof.
  apply (empty_candidates_stall contradictory_puzzle 81 contradictory_outcome
           ltac:(split; [reflexivity|];
                 repeat (constructor; [reflexivity|]); constructor)
           ltac:(vm_compute; reflexivity)
           1 (0, 8)).
  - apply (bool_decide_unpack _). vm_compute. exact I.
  - vm_compute. reflexivity.
  - vm_compute. reflexivity.
Defined.

(** * Further properties *)

(** ** Solutions *)

Lemma elem_of_row_cells i k : k ∈ row_cells i ↔ k.1 = i ∧ k.2 < 9.
Proof.
  unfold row_cells. rewrite list_elem_of_fmap. split.
  - intros (j & -> & Hj%elem_of_seq). simpl. lia.
  - destruct k as [i' j]. cbn [fst snd]. intros [-> Hj]. exists j.
    split; [done|apply elem_of_seq; lia].
Qed.

Lemma elem_of_column_cells j k : k ∈ column_cells j ↔ k.1 < 9 ∧ k.2 = j.
Proof.
  unfold column_cells. rewrite list_elem_of_fmap. split.
  - intros (i & -> & Hi%elem_of_seq). simpl. lia.
  - destruct k as [i j']. cbn [fst snd]. intros [Hi ->]. exists i.
    split; [done|apply elem_of_seq; lia].
Qed.

Lemma elem_of_box_cells bi bj k :
  k ∈ box_cells bi bj ↔ k.1 / 3 = bi ∧ k.2 / 3 = bj.
Proof.
  unfold box_cells. rewrite list_elem_of_bind.
  assert (Hdiv : ∀ n m, m * 3 ≤ n < m * 3 + 3 ↔ n / 3 = m).
  { intros n m. pose proof (Nat.div_mod_eq n 3).
    pose proof (Nat.mod_upper_bound n 3). lia. }
  split.
  - intros (i & (j & ->%list_elem_of_singleton & Hj%elem_of_seq)%list_elem_of_bind
              & Hi%elem_of_seq). cbn [fst snd]. rewrite <- !Hdiv. lia.
  - destruct k as [i j]. cbn [fst snd]. intros [Hi%Hdiv Hj%Hdiv]. exists i.
    split; [|apply elem_of_seq; lia].
    apply list_elem_of_bind. exists j. split; [left|apply elem_of_seq; lia].
Qed.

(** Two related cells of the grid lie in one of the 27 groups. *)
Lemma related_group k c :
  in_grid k → in_grid c → related k c →
  ∃ g, g ∈ all_groups ∧ k ∈ g ∧ c ∈ g.
Proof.
  intros [Hk1 Hk2] [Hc1 Hc2] [Hr|[Hr|[Hr1 Hr2]]]; unfold all_groups.
  - exists (row_cells k.1). split_and!.
    + apply elem_of_app. left. apply list_elem_of_fmap. exists k.1.
      split; [done|apply elem_of_seq; lia].
    + by apply elem_of_row_cells.
    + by apply elem_of_row_cells.
  - exists (column_cells k.2). split_and!.
    + apply elem_of_app. right. apply elem_of_app. left.
      apply list_elem_of_fmap. exists k.2. split; [done|apply elem_of_seq; lia].
    + by apply elem_of_column_cells.
    + by apply elem_of_column_cells.
  - exists (box_cells (k.1 / 3) (k.2 / 3)).
    pose proof (Nat.div_mod_eq k.1 3). pose proof (Nat.div_mod_eq k.2 3).
    pose proof (Nat.mod_upper_bound k.1 3). pose proof (Nat.mod_upper_bound k.2 3).
    split_and!.
    + apply elem_of_app. right. apply elem_of_app. right.
      apply list_elem_of_bind. exists (k.1 / 3). split; [|apply elem_of_seq; lia].
      apply list_elem_of_bind. exists (k.2 / 3). split; [left|apply elem_of_seq; lia].
    + by apply elem_of_box_cells.
    + by apply elem_of_box_cells.
Qed.

Lemma solution_distinct S k c :
  solution S → in_grid k → in_grid c → c ≠ k → related k c →
  board_get S c.1 c.2 ≠ board_get S k.1 k.2.
Proof.
  intros (_ & Hg & _) Hk Hc Hne Hrel.
  destruct (related_group k c Hk Hc Hrel) as (g & Hin & Hkg & Hcg).
  rewrite Forall_forall in Hg. specialize (Hg g Hin).
  pose proof all_groups_shape as Hshape. rewrite Forall_forall in Hshape.
  destruct (Hshape g Hin) as [_ Hnd].
  apply NoDup_values_at in Hg; [|done]. by apply Hg.
Qed.

Lemma solution_value S k : solution S → in_grid k → board_get S k.1 k.2 ∈ all_values.
Proof.
  intros (_ & _ & Hv) Hk. rewrite Forall_forall in Hv.
  by apply Hv, elem_of_all_cells.
Qed.

(** Nine distinct symbols out of nine are all of them. *)
Lemma NoDup_nine (l : list cell) :
  NoDup l → length l = 9 → l ⊆ all_values → l ≡ₚ all_values.
Proof.
  intros Hnd Hlen Hsub.
  apply submseteq_length_Permutation; [|by rewrite Hlen].
  apply NoDup_submseteq; [done|]. intros x Hx. by apply Hsub.
Qed.

Lemma all_groups_in_grid : Forall (λ g, Forall (λ c, c ∈ all_cells) g) all_groups.
Proof. compute_done. Qed.

(** In a solution every symbol occurs in every group. *)
Lemma solution_group_covers S g v :
  solution S → g ∈ all_groups → v ∈ all_values →
  ∃ c, c ∈ g ∧ in_grid c ∧ board_get S c.1 c.2 = v.
Proof.
  intros (_ & Hg & Hv) Hin Hval.
  rewrite Forall_forall in Hg. specialize (Hg g Hin).
  pose proof all_groups_shape as Hshape. rewrite Forall_forall in Hshape.
  destruct (Hshape g Hin) as [Hlen _].
  pose proof all_groups_in_grid as Hgrid. rewrite Forall_forall in Hgrid.
  specialize (Hgrid g Hin). rewrite Forall_forall in Hgrid.
  rewrite Forall_forall in Hv.
  assert (Hperm : values_at S g ≡ₚ all_values).
  { apply NoDup_nine; [done|by unfold values_at; rewrite length_fmap|].
    intros x (c & -> & Hc)%list_elem_of_fmap. by apply Hv, Hgrid. }
  rewrite <- Hperm in Hval. apply list_elem_of_fmap in Hval as (c & -> & Hc).
  exists c. split_and!; [done| |done]. by apply elem_of_all_cells, Hgrid.
Qed.

Lemma solution_covers S k v :
  solution S → in_grid k → v ∈ all_values →
  (∃ c, in_grid c ∧ same_row k c ∧ board_get S c.1 c.2 = v) ∧
  (∃ c, in_grid c ∧ same_column k c ∧ board_get S c.1 c.2 = v) ∧
  (∃ c, in_grid c ∧ same_box k c ∧ board_get S c.1 c.2 = v).
Proof.
  intros HS [Hk1 Hk2] Hv.
  pose proof (Nat.div_mod_eq k.1 3). pose proof (Nat.div_mod_eq k.2 3).
  pose proof (Nat.mod_upper_bound k.1 3). pose proof (Nat.mod_upper_bound k.2 3).
  split_and!.
  - destruct (solution_group_covers S (row_cells k.1) v HS) as (c & Hc & Hg & <-);
      [|done|].
    { unfold all_groups. apply elem_of_app. left. apply list_elem_of_fmap.
      exists k.1. split; [done|apply elem_of_seq; lia]. }
    apply elem_of_row_cells in Hc as [Hc _]. by exists c.
  - destruct (solution_group_covers S (column_cells k.2) v HS)
      as (c & Hc & Hg & <-); [|done|].
    { unfold all_groups. apply elem_of_app. right. apply elem_of_app. left.
      apply list_elem_of_fmap. exists k.2. split; [done|apply elem_of_seq; lia]. }
    apply elem_of_column_cells in Hc as [_ Hc]. by exists c.
  - destruct (solution_group_covers S (box_cells (k.1 / 3) (k.2 / 3)) v HS)
      as (c & Hc & Hg & <-); [|done|].
    { unfold all_groups. apply elem_of_app. right. apply elem_of_app. right.
      apply list_elem_of_bind. exists (k.1 / 3). split; [|apply elem_of_seq; lia].
      apply list_elem_of_bind. exists (k.2 / 3).
      split; [left|apply elem_of_seq; lia]. }
    apply elem_of_box_cells in Hc. by exists c.
Qed.

Lemma agrees_at b S k :
  agrees b S → in_grid k →
  board_get b k.1 k.2 = "X" ∨ board_get b k.1 k.2 = board_get S k.1 k.2.
Proof.
  unfold agrees. rewrite Forall_forall. intros H Hk.
  by apply H, elem_of_all_cells.
Qed.

(** ** The solver against a solution *)

Lemma sound_state_key S st k :
  sound_state S st → k ∈ dict_keys st.2 → in_grid k.
Proof.
  intros (Hinv & _) Hk.
  by destruct (inv_key_cands st k Hinv Hk) as [_ (? & ? & _)].
Qed.

(** A visit keeps the state sound when it leaves the symbol of the
    solution among the candidates of an unknown key and writes nothing but
    that symbol there. *)
Lemma sound_step S st st' x :
  sound_state S st → x ∈ dict_keys st.2 → effect x st st' →
  (board_get st.1 x.1 x.2 = "X" → board_get st'.1 x.1 x.2 = "X" →
   board_get S x.1 x.2 ∈ dict_item st'.2 x) →
  (board_get st.1 x.1 x.2 = "X" →
   board_get st'.1 x.1 x.2 = "X"
   ∨ board_get st'.1 x.1 x.2 = board_get S x.1 x.2) →
  sound_state S st'.
Proof.
  intros (Hinv & Hnd & Hag & Hcs & Htr) Hx Heff Hc1 Hc2.
  pose proof (effect_keys _ _ _ Hx Heff) as Hkeys.
  assert (Hmono : ∀ i j, board_get st.1 i j ≠ "X" →
                         board_get st'.1 i j = board_get st.1 i j).
  { intros i j. by eapply effect_board_mono. }
  assert (Hback : ∀ c, board_get st'.1 c.1 c.2 = "X" → board_get st.1 c.1 c.2 = "X").
  { intros c Hc. destruct (decide (board_get st.1 c.1 c.2 = "X")) as [|Hn]; [done|].
    rewrite (Hmono _ _ Hn) in Hc. done. }
  split_and!.
  - by eapply effect_inv.
  - by rewrite Hkeys.
  - unfold agrees. apply Forall_forall. intros c Hc%elem_of_all_cells.
    destruct (decide (board_get st.1 c.1 c.2 = "X")) as [Hu|Hn].
    + destruct (decide (c = x)) as [->|Hne]; [by apply Hc2|].
      left. rewrite (effect_board_other x st st' c.1 c.2 Heff); [done|].
      by destruct c.
    + rewrite (Hmono _ _ Hn).
      destruct (agrees_at _ _ c Hag Hc) as [?|?]; [done|by right].
  - intros k Hk Hu. rewrite Hkeys in Hk.
    destruct (decide (k = x)) as [->|Hne]; [by apply Hc1; [apply Hback|]|].
    rewrite (effect_cands_other x st st' k Heff) by done.
    apply Hcs; [done|by apply Hback].
  - intros c Hc Hu. rewrite Hkeys. apply Htr; [done|by apply Hback].
Qed.

(** On an unknown key the elimination keeps the symbol of the solution. *)
Lemma elim_keeps_solution S st x :
  solution S → sound_state S st → x ∈ dict_keys st.2 →
  board_get st.1 x.1 x.2 = "X" →
  board_get S x.1 x.2
  ∈ remove_impossible_values x.1 x.2 (dict_item st.2 x) st.1.
Proof.
  intros HS Hsound Hx Hu. pose proof (sound_state_key S st x Hsound Hx) as Hgrid.
  destruct Hsound as (Hinv & Hnd & Hag & Hcs & Htr).
  unfold remove_impossible_values. apply list_elem_of_filter.
  split; [|by apply Hcs].
  rewrite impossible_values_spec; [|apply Hinv|done|done].
  intros (Hne & c & Hc & Hcx & Hrel & Hv).
  destruct (agrees_at _ _ c Hag Hc) as [Hcu|Hcs'].
  - rewrite Hcu in Hv. by rewrite <- Hv in Hne.
  - rewrite Hcs' in Hv. by apply (solution_distinct S x c HS).
Qed.

Lemma elim_step_sound S st x :
  solution S → sound_state S st → x ∈ dict_keys st.2 →
  sound_state S (elim_step st x).
Proof.
  intros HS Hsound Hx.
  apply (sound_step S st _ x Hsound Hx (elim_step_effect st x)).
  - intros Hu _. pose proof (elim_keeps_solution S st x HS Hsound Hx Hu) as Hin.
    destruct st as [b u]. rewrite elim_step_eq. simpl.
    by rewrite dict_item_set_eq.
  - intros Hu. pose proof (elim_keeps_solution S st x HS Hsound Hx Hu) as Hin.
    pose proof (sound_state_key S st x Hsound Hx) as [Hx1 Hx2].
    destruct Hsound as ([Hwf _] & _).
    destruct st as [b u]. rewrite elim_step_eq. simpl in *.
    destruct (remove_impossible_values _ _ _ _) as [|v [|w cs]]; simpl;
      [by left| |by left].
    apply list_elem_of_singleton in Hin as <-. right.
    by apply board_get_set_eq.
Qed.

Lemma elim_step_fresh st x (visited : list key) :
  inv st → x ∈ dict_keys st.2 → x ∉ visited →
  fresh (.∈ visited) st → fresh (.∈ visited ++ [x]) (elim_step st x).
Proof.
  intros Hinv Hx Hnew Hfresh k c Hk Hvis Hu Hc Hne Hrel Hv.
  pose proof (elim_step_effect st x) as Heff.
  pose proof (effect_keys _ _ _ Hx Heff) as Hkeys. rewrite Hkeys in Hk |- *.
  destruct (inv_key_cands st x Hinv Hx) as [_ (Hx1 & Hx2 & Hsub & _)].
  assert (Hwf : wf_board st.1) by apply Hinv.
  destruct (decide (k = x)) as [->|Hkx].
  - (* the key just visited is still unknown: nothing was written *)
    left. destruct st as [b u]. rewrite elim_step_eq in Hu, Hv |- *.
    simpl in *. rewrite dict_item_set_eq.
    destruct (remove_impossible_values x.1 x.2 (dict_item u x) b)
      as [|v [|w cs]] eqn:Hcs.
    + apply not_elem_of_nil.
    + rewrite board_get_set_eq in Hu by done. subst v.
      assert (Hin : "X" ∈ remove_impossible_values x.1 x.2 (dict_item u x) b)
        by (rewrite Hcs; left).
      apply list_elem_of_filter in Hin as [_ Hin].
      eapply sublist_subseteq in Hin; [|done].
      by apply all_values_known in Hin.
    + rewrite <- Hcs. unfold remove_impossible_values.
      rewrite list_elem_of_filter. intros [Hnot _]. apply Hnot.
      apply impossible_values_spec; [done..|].
      split; [done|]. by exists c.
  - assert (Hkv : k ∈ visited).
    { apply elem_of_app in Hvis as [?|Hk'%list_elem_of_singleton]; done. }
    assert (Hku : board_get st.1 k.1 k.2 = "X").
    { rewrite <- (effect_board_other x st _ k.1 k.2 Heff); [done|by destruct k]. }
    rewrite (effect_cands_other x st _ k Heff) by done.
    destruct (decide (c = x)) as [->|Hcx].
    + destruct (decide (board_get st.1 x.1 x.2 = "X")) as [Hxu|Hxn].
      * right. split_and!; [done|apply elem_of_app; right; left|].
        destruct st as [b u]. rewrite elim_step_eq in Hv |- *. simpl in *.
        rewrite dict_item_set_eq.
        destruct (remove_impossible_values x.1 x.2 (dict_item u x) b)
          as [|v [|w cs]]; [done| |done].
        by rewrite board_get_set_eq.
      * rewrite (effect_board_mono x st _ x.1 x.2 Hinv Hx Heff Hxn).
        destruct (Hfresh k x) as [?|(_ & ? & _)]; try done. by left.
    + assert (Hcb : board_get (elim_step st x).1 c.1 c.2 = board_get st.1 c.1 c.2).
      { apply (effect_board_other x st _ c.1 c.2 Heff). by destruct c. }
      rewrite Hcb in Hv |- *.
      destruct (Hfresh k c) as [?|(Hck & Hcvis & Hcc)]; try done; [by left|].
      right. split_and!; [done|apply elem_of_app; by left|].
      by rewrite (effect_cands_other x st _ c Heff).
Qed.

(** What the hidden-single pass commits on an unknown cell is the symbol of
    the solution. *)
Lemma forced_is_solution S st x v :
  solution S → sound_state S st → fresh (λ _, True) st →
  x ∈ dict_keys st.2 → board_get st.1 x.1 x.2 = "X" →
  v ∈ dict_item st.2 x → spec_forced st.2 x v →
  v = board_get S x.1 x.2.
Proof.
  intros HS Hsound Hfresh Hx Hu Hv Hforced.
  pose proof (sound_state_key S st x Hsound Hx) as Hgrid.
  destruct Hsound as (Hinv & Hnd & Hag & Hcs & Htr).
  destruct (commit_value st x v Hinv Hx Hv) as (_ & _ & Hval & _).
  destruct (solution_covers S x v HS Hgrid Hval)
    as ((c1 & Hc1 & Hr1 & Hs1) & (c2 & Hc2 & Hr2 & Hs2) & (c3 & Hc3 & Hr3 & Hs3)).
  assert (Hone : ∀ (G : key → key → Prop) c,
             (∀ k c, G k c → related k c) → spec_absent G st.2 x v →
             in_grid c → G x c → board_get S c.1 c.2 = v →
             v = board_get S x.1 x.2).
  { intros G c HG Habs Hc Hr Hs.
    destruct (decide (c = x)) as [->|Hne]; [done|]. exfalso.
    destruct (agrees_at _ _ c Hag Hc) as [Hcu|Hcv].
    - apply (Habs c); [by apply Htr|done|done|].
      rewrite <- Hs. apply Hcs; [by apply Htr|done].
    - rewrite Hs in Hcv. pose proof (all_values_known v Hval) as Hvx.
      destruct (Hfresh x c) as [Hnot|(Hck & _ & Hcc)]; try done.
      + by apply HG.
      + by rewrite Hcv.
      + apply Hnot. by rewrite Hcv.
      + apply (Habs c); [done..|]. rewrite Hcc, Hcv. left. }
  destruct Hforced as [Habs|[Habs|Habs]].
  - apply (Hone same_row c1); try done. intros ?? ?. by left.
  - apply (Hone same_column c2); try done. intros ?? ?. right. by left.
  - apply (Hone same_box c3); try done. intros ?? ?. right. by right.
Qed.

Lemma hidden_step_sound S st x :
  solution S → sound_state S st → fresh (λ _, True) st →
  x ∈ dict_keys st.2 →
  sound_state S (hidden_step st x) ∧ fresh (λ _, True) (hidden_step st x).
Proof.
  intros HS Hsound Hfresh Hx. unfold hidden_step.
  destruct (try_values_cases x (dict_item st.2 x) st)
    as [[-> _]|(l1 & v & l2 & Hcs & _ & Hcheck & ->)]; [done|].
  assert (Hv : v ∈ dict_item st.2 x).
  { rewrite Hcs. apply elem_of_app. right. left. }
  pose proof (sound_state_key S st x Hsound Hx) as [Hx1 Hx2].
  pose proof Hsound as (Hinv & Hnd & _).
  destruct (commit_value st x v Hinv Hx Hv) as (_ & _ & Hval & _).
  pose proof (all_values_known v Hval) as Hvx.
  assert (Hwf : wf_board st.1) by apply Hinv.
  pose proof (effect_commit x st v Hv) as Heff.
  split.
  - apply (sound_step S st _ x Hsound Hx Heff); simpl.
    + rewrite board_get_set_eq by done. done.
    + intros Hu. right. rewrite board_get_set_eq by done.
      apply (forced_is_solution S st x v); try done.
      by apply check_only_possible_location_spec.
  - intros k c Hk _ Hu Hc Hne Hrel Hcv. simpl in *.
    rewrite (dict_keys_set _ _ _ Hx) in Hk |- *.
    destruct (decide (k = x)) as [->|Hkx].
    { rewrite board_get_set_eq in Hu by done. done. }
    rewrite board_get_set_ne in Hu by (destruct k, x; simpl; congruence).
    rewrite (dict_item_set_ne _ x) by done.
    destruct (decide (c = x)) as [->|Hcx].
    + right. split_and!; [done|done|].
      by rewrite dict_item_set_eq, board_get_set_eq.
    + rewrite board_get_set_ne in Hcv |- * by (destruct c, x; simpl; congruence).
      destruct (Hfresh k c) as [?|(Hck & _ & Hcc)]; try done; [by left|].
      right. split_and!; [done|done|]. by rewrite dict_item_set_ne.
Qed.

Lemma elim_fold_sound S (todo done : list key) st :
  solution S → NoDup (done ++ todo) → dict_keys st.2 = done ++ todo →
  sound_state S st → fresh (.∈ done) st →
  sound_state S (foldl elim_step st todo)
  ∧ fresh (.∈ done ++ todo) (foldl elim_step st todo).
Proof.
  intros HS. revert done st.
  induction todo as [|x todo IH]; intros done st Hnd Hkeys Hsound Hfresh; simpl.
  - by rewrite app_nil_r.
  - assert (Hx : x ∈ dict_keys st.2).
    { rewrite Hkeys. apply elem_of_app. right. left. }
    assert (Hnew : x ∉ done).
    { apply NoDup_app in Hnd as (_ & Hnot & _). intros Hin.
      apply (Hnot x Hin). left. }
    pose proof Hsound as (Hinv & _).
    replace (done ++ x :: todo) with ((done ++ [x]) ++ todo) in *
      by (by rewrite <- app_assoc).
    apply IH; [done| |by apply elim_step_sound|by apply elim_step_fresh].
    by rewrite (effect_keys x st _ Hx (elim_step_effect st x)).
Qed.

Lemma elim_pass_sound S st :
  solution S → sound_state S st →
  sound_state S (elim_pass st) ∧ fresh (λ _, True) (elim_pass st).
Proof.
  intros HS Hsound. pose proof Hsound as (_ & Hnd & _).
  destruct (elim_fold_sound S (dict_keys st.2) [] st HS Hnd eq_refl Hsound)
    as [Hs Hf].
  { intros k c _ Hvis. inversion Hvis. }
  split; [done|]. intros k c Hk _ Hu Hc Hne Hrel Hv.
  assert (Hkeys : dict_keys (elim_pass st).2 = dict_keys st.2).
  { destruct Hsound as (Hinv & _).
    by destruct (elim_pass_evolves st Hinv) as [_ [-> _]]. }
  destruct (Hf k c) as [?|(? & _ & ?)]; try done;
    [by rewrite <- Hkeys|by left|by right].
Qed.

Lemma hidden_fold_sound S ks st :
  solution S → ks ⊆ dict_keys st.2 →
  sound_state S st → fresh (λ _, True) st →
  sound_state S (foldl hidden_step st ks)
  ∧ fresh (λ _, True) (foldl hidden_step st ks).
Proof.
  intros HS. revert st.
  induction ks as [|x ks IH]; intros st Hks Hsound Hfresh; simpl; [done|].
  assert (Hx : x ∈ dict_keys st.2) by (apply Hks; left).
  destruct (hidden_step_sound S st x HS Hsound Hfresh Hx) as [Hs Hf].
  apply IH; [|done..].
  rewrite (effect_keys x st _ Hx (hidden_step_effect st x)).
  intros k Hk. apply Hks. by right.
Qed.

Lemma round_sound S st :
  solution S → sound_state S st → sound_state S (round st).
Proof.
  intros HS Hsound. destruct (elim_pass_sound S st HS Hsound) as [Hs Hf].
  unfold round, hidden_pass, for_keys.
  by apply hidden_fold_sound.
Qed.

Lemma iter_round_sound S st n :
  solution S → sound_state S st → sound_state S (Nat.iter n round st).
Proof.
  intros HS Hsound. induction n as [|n IH]; simpl; [done|].
  by apply round_sound.
Qed.

Lemma init_sound S (b : board) :
  wf_board b → solution S → agrees b S → sound_state S (init b).
Proof.
  intros Hwf HS Hag. split_and!; simpl.
  - by apply inv_init.
  - apply create_unknowns_dict_NoDup.
  - done.
  - intros k Hk Hu.
    apply dict_get_keys in Hk as [cs Hget]. unfold dict_item. rewrite Hget.
    apply dict_get_elem_of, create_unknowns_dict_elem in Hget
      as (Hk1 & Hk2 & _ & ->). simpl. by apply solution_value.
  - intros k [Hk1 Hk2] Hu. unfold dict_keys. apply list_elem_of_fmap.
    exists (k, all_values). split; [done|].
    by apply create_unknowns_dict_elem.
Qed.

(** Two boards of the shape with the same cells are equal. *)
Lemma board_ext (b b' : board) :
  wf_board b → wf_board b' →
  (∀ k, in_grid k → board_get b k.1 k.2 = board_get b' k.1 k.2) → b = b'.
Proof.
  intros Hwf Hwf' Heq.
  assert (Hc : concat b = concat b').
  { rewrite (wf_concat b Hwf), (wf_concat b' Hwf'). unfold values_at.
    apply list_fmap_ext. intros i k Hk. apply Heq, elem_of_all_cells.
    by eapply list_elem_of_lookup_2. }
  destruct_board Hwf b. destruct_board Hwf' b'.
  simpl in Hc. by simplify_eq.
Qed.

(** ** The verifier on a solution *)

Lemma sum_perm (l l' : list Z) :
  l ≡ₚ l' → foldr Z.add 0%Z l = foldr Z.add 0%Z l'.
Proof. induction 1; simpl; lia. Qed.

Lemma sum_app (l l' : list Z) :
  foldr Z.add 0%Z (l ++ l') = (foldr Z.add 0%Z l + foldr Z.add 0%Z l')%Z.
Proof. induction l as [|x l IH]; simpl; lia. Qed.

Lemma all_values_int v :
  v ∈ all_values → ∃ z, py_int v = Some z ∧ (1 ≤ z ≤ 9)%Z.
Proof.
  unfold all_values. intros H.
  repeat (apply elem_of_cons in H as [->|H];
          [eexists; split; [vm_compute; reflexivity|lia]|]).
  inversion H.
Qed.

Lemma solution_row_sum S i :
  solution S → i < 9 →
  foldr Z.add 0%Z (int_value <$> values_at S (row_cells i)) = 45%Z.
Proof.
  intros HS Hi. pose proof HS as (_ & Hg & Hv).
  rewrite Forall_forall in Hg. rewrite Forall_forall in Hv.
  assert (Hin : row_cells i ∈ all_groups).
  { unfold all_groups. apply elem_of_app. left. apply list_elem_of_fmap.
    exists i. split; [done|apply elem_of_seq; lia]. }
  assert (Hperm : values_at S (row_cells i) ≡ₚ all_values).
  { apply NoDup_nine; [by apply Hg|by unfold values_at, row_cells; rewrite !length_fmap|].
    intros x (c & -> & Hc)%list_elem_of_fmap. apply Hv, elem_of_all_cells.
    apply elem_of_row_cells in Hc as [Hc1 Hc2]. split; [lia|done]. }
  rewrite (sum_perm _ (int_value <$> all_values)); [done|by rewrite Hperm].
Qed.

Lemma solution_spec_valid S : solution S → spec_valid S.
Proof.
  intros HS. pose proof HS as (Hwf & Hg & Hv).
  rewrite Forall_forall in Hg. rewrite Forall_forall in Hv. split_and!.
  - intros g Hin. apply NoDup_values_at; [|by apply Hg].
    pose proof all_groups_shape as Hshape. rewrite Forall_forall in Hshape.
    by destruct (Hshape g Hin).
  - intros k Hk. by apply all_values_known, Hv.
  - intros k Hk. by apply all_values_int, Hv.
  - change all_cells with
      (row_cells 0 ++ row_cells 1 ++ row_cells 2 ++ row_cells 3 ++ row_cells 4
       ++ row_cells 5 ++ row_cells 6 ++ row_cells 7 ++ row_cells 8).
    unfold values_at. rewrite !fmap_app, !sum_app.
    fold (values_at S (row_cells 0)). fold (values_at S (row_cells 1)).
    fold (values_at S (row_cells 2)). fold (values_at S (row_cells 3)).
    fold (values_at S (row_cells 4)). fold (values_at S (row_cells 5)).
    fold (values_at S (row_cells 6)). fold (values_at S (row_cells 7)).
    fold (values_at S (row_cells 8)).
    rewrite !solution_row_sum by (done || lia). done.
Qed.

Lemma check_solution_iff (b : board) :
  wf_board b → check_solution b = Ret tt ↔ spec_valid b.
Proof.
  intros Hwf.
  rewrite check_solution_Ret, (groups_checked b Hwf). unfold spec_valid.
  apply and_iff_compat_l.
  rewrite forallb_bool_decide, (wf_concat b Hwf).
  unfold values_at at 1. rewrite Forall_fmap, Forall_forall.
  apply and_iff_compat_l. split.
  - intros (m & [-> Hall]%astype_int_Ret & Hle & Hge & Hsum).
    rewrite forallb_bool_decide in Hle, Hge.
    unfold sum_all in Hsum. rewrite concat_fmap_fmap in Hle, Hge, Hsum.
    rewrite (wf_concat b Hwf) in Hall, Hle, Hge, Hsum.
    split; [|done]. intros k Hk.
    unfold values_at in Hall, Hle, Hge.
    rewrite !Forall_fmap, !Forall_forall in Hall.
    rewrite !Forall_fmap, !Forall_forall in Hle.
    rewrite !Forall_fmap, !Forall_forall in Hge.
    specialize (Hall k Hk). specialize (Hle k Hk). specialize (Hge k Hk).
    simpl in *. apply to_int64_value in Hall.
    unfold convertible in Hall. unfold int_value in Hle, Hge.
    destruct (py_int (board_get b k.1 k.2)) as [z|]; [|done].
    exists z. split; [done|]. simpl in *. lia.
  - intros [Hcells Hsum].
    exists ((λ row : list cell, int_value <$> row) <$> b).
    rewrite astype_int_Ret, !forallb_bool_decide. unfold sum_all.
    rewrite concat_fmap_fmap, (wf_concat b Hwf). unfold values_at at 1 2 3.
    rewrite !Forall_fmap, !Forall_forall.
    split_and!; [done| | | |done]; intros k Hk;
      destruct (Hcells k Hk) as (z & Hz & Hrange); simpl.
    + apply to_int64_value. unfold convertible. rewrite Hz. lia.
    + unfold int_value. rewrite Hz. simpl. lia.
    + unfold int_value. rewrite Hz. simpl. lia.
Qed.

Lemma solution_checks S : solution S → check_solution S = Ret tt.
Proof.
  intros HS. apply check_solution_iff; [apply HS|by apply solution_spec_valid].
Qed.

(** ** Soundness of the solver *)









(** ** A stall is a fixed point *)

Lemma evolves_count st st' :
  evolves st st' → count_unknown st'.1 ≤ count_unknown st.1.
Proof. intros (_ & _ & _ & [->|?]); lia. Qed.

(** If a run of visits ends on the board it began with, so did its first
    visit. *)
Lemma first_visit_stable st v vs :
  inv st → visit_key v ∈ dict_keys st.2 →
  Forall (λ v, visit_key v ∈ dict_keys st.2) vs →
  (foldl visit_step (visit_step st v) vs).1 = st.1 →
  (visit_step st v).1 = st.1.
Proof.
  intros Hinv Hv Hvs Hend.
  pose proof (visit_step_effect st v) as Heff.
  pose proof (effect_inv _ _ _ Hinv Hv Heff) as Hinv'.
  destruct (effect_evolves _ _ _ Hinv Hv Heff) as (Hk & _ & _ & [?|Hless]);
    [done|].
  destruct (run_evolves (visit_step st v) vs Hinv') as [_ Hev%evolves_count].
  { by rewrite Hk. }
  rewrite Hend in Hev. lia.
Qed.

Lemma dict_set_same (u : unknowns) k :
  k ∈ dict_keys u → dict_set u k (dict_item u k) = u.
Proof.
  unfold dict_keys, dict_item. induction u as [|[k0 v0] u IH]; simpl.
  - intros H. inversion H.
  - intros Hk. case_decide as Hk0; subst; simpl; [done|].
    f_equal. apply IH. apply elem_of_cons in Hk as [?|?]; [congruence|done].
Qed.

Lemma hidden_step_stable st x :
  inv st → x ∈ dict_keys st.2 →
  (hidden_step st x).1 = st.1 → hidden_step st x = st.
Proof.
  intros Hinv Hx. unfold hidden_step.
  destruct (try_values_cases x (dict_item st.2 x) st)
    as [[-> _]|(l1 & v & l2 & Hcs & _ & _ & ->)]; [done|].
  simpl. intros Hb.
  assert (Hv : v ∈ dict_item st.2 x).
  { rewrite Hcs. apply elem_of_app. right. left. }
  destruct (commit_value st x v Hinv Hx Hv) as (Hx1 & Hx2 & Hval & _).
  assert (Hget : board_get st.1 x.1 x.2 = v).
  { rewrite <- Hb at 1. apply board_get_set_eq; [apply Hinv|done..]. }
  destruct (inv_key_cands st x Hinv Hx) as [_ (_ & _ & _ & _ & Hm)].
  assert (Hone : dict_item st.2 x = [v]).
  { destruct (dict_item st.2 x) as [|w [|w' cs]].
    - inversion Hv.
    - by rewrite <- Hm, Hget.
    - rewrite Hm in Hget. subst v. by apply all_values_known in Hval. }
  rewrite <- Hone, (dict_set_same _ _ Hx), Hb. by destruct st.
Qed.

Lemma elim_step_stable st x :
  inv st → x ∈ dict_keys st.2 →
  remove_impossible_values x.1 x.2 (dict_item st.2 x) st.1 = dict_item st.2 x →
  elim_step st x = st.
Proof.
  intros Hinv Hx Hfix.
  destruct (inv_key_cands st x Hinv Hx) as [_ (_ & _ & _ & _ & Hm)].
  destruct st as [b u]. rewrite elim_step_eq. simpl in *.
  rewrite Hfix, (dict_set_same _ _ Hx).
  destruct (dict_item u x) as [|v [|w cs]]; [done| |done].
  by rewrite <- Hm, board_set_same.
Qed.

Lemma remove_impossible_values_idem X Y possible (b : board) :
  remove_impossible_values X Y (remove_impossible_values X Y possible b) b
  = remove_impossible_values X Y possible b.
Proof.
  unfold remove_impossible_values.
  induction possible as [|x l IH]; [done|].
  rewrite (filter_cons _ x l). case_decide; [|done].
  rewrite filter_cons_True by done. by rewrite IH.
Qed.

Lemma hidden_fold_stable st ks :
  inv st → ks ⊆ dict_keys st.2 →
  (foldl hidden_step st ks).1 = st.1 → foldl hidden_step st ks = st.
Proof.
  induction ks as [|x ks IH]; intros Hinv Hks Hend; simpl in *; [done|].
  assert (Hx : x ∈ dict_keys st.2) by (apply Hks; left).
  assert (Hrest : ks ⊆ dict_keys st.2) by (intros k ?; apply Hks; by right).
  assert (Hone : (hidden_step st x).1 = st.1).
  { apply (first_visit_stable st (Hidden x) (Hidden <$> ks) Hinv Hx).
    - apply Forall_fmap, Forall_forall. intros k Hk. by apply Hrest.
    - by rewrite foldl_fmap. }
  rewrite (hidden_step_stable st x Hinv Hx Hone) in Hend |- *. by apply IH.
Qed.

(** An elimination pass that leaves the board as it was has filtered the
    candidates of each key by that one board. *)
Lemma elim_fold_stable st ks x :
  inv st → NoDup ks → ks ⊆ dict_keys st.2 →
  (foldl elim_step st ks).1 = st.1 →
  dict_item (foldl elim_step st ks).2 x
  = if decide (x ∈ ks)
    then remove_impossible_values x.1 x.2 (dict_item st.2 x) st.1
    else dict_item st.2 x.
Proof.
  revert st. induction ks as [|x0 ks IH]; intros st Hinv Hnd Hks Hend;
    simpl in *.
  - done.
  - apply NoDup_cons in Hnd as [Hx0 Hnd].
    assert (Hk0 : x0 ∈ dict_keys st.2) by (apply Hks; left).
    assert (Hrest : ks ⊆ dict_keys st.2) by (intros k ?; apply Hks; by right).
    pose proof (elim_step_effect st x0) as Heff.
    assert (Hone : (elim_step st x0).1 = st.1).
    { apply (first_visit_stable st (Elim x0) (Elim <$> ks) Hinv Hk0).
      - apply Forall_fmap, Forall_forall. intros k Hk. by apply Hrest.
      - by rewrite foldl_fmap. }
    rewrite IH; [|by eapply effect_inv|done| |by rewrite Hone].
    2: { by rewrite (effect_keys _ _ _ Hk0 Heff). }
    rewrite Hone. destruct (decide (x = x0)) as [->|Hne].
    + rewrite decide_False by done. rewrite decide_True by left.
      destruct st as [b u]. rewrite elim_step_eq. simpl.
      by rewrite dict_item_set_eq.
    + rewrite (effect_cands_other _ _ _ x Heff) by done.
      destruct (decide (x ∈ ks)).
      * by rewrite decide_True by (by right).
      * rewrite decide_False; [done|]. by intros [?|?]%elem_of_cons.
Qed.

Lemma elim_fold_fixed st ks :
  inv st → ks ⊆ dict_keys st.2 →
  (∀ x, x ∈ ks →
        remove_impossible_values x.1 x.2 (dict_item st.2 x) st.1
        = dict_item st.2 x) →
  foldl elim_step st ks = st.
Proof.
  induction ks as [|x ks IH]; intros Hinv Hks Hfix; simpl; [done|].
  rewrite (elim_step_stable st x Hinv); [|apply Hks; left|apply Hfix; left].
  apply IH; [done| |]; intros k ?; [apply Hks|apply Hfix]; by right.
Qed.

Lemma elim_pass_fixed st :
  inv st → NoDup (dict_keys st.2) → (elim_pass st).1 = st.1 →
  elim_pass (elim_pass st) = elim_pass st.
Proof.
  intros Hinv Hnd Hb.
  destruct (elim_pass_evolves st Hinv) as [Hinv' [Hkeys _]].
  unfold elim_pass at 1. unfold for_keys.
  apply elim_fold_fixed; [done|done|]. intros x Hx. rewrite Hkeys in Hx.
  unfold elim_pass, for_keys in Hb |- *.
  rewrite (elim_fold_stable st (dict_keys st.2) x Hinv Hnd) by done.
  rewrite decide_True by done. rewrite Hb.
  apply remove_impossible_values_idem.
Qed.

Lemma round_fixed st :
  inv st → NoDup (dict_keys st.2) → (round st).1 = st.1 →
  round st = elim_pass st ∧ round (round st) = round st.
Proof.
  intros Hinv Hnd Hb.
  destruct (elim_pass_evolves st Hinv) as [Hinv' [Hkeys _]].
  assert (He : (elim_pass st).1 = st.1).
  { rewrite (round_run st Hinv) in Hb. unfold round_visits in Hb.
    rewrite foldl_app, <- elim_pass_run in Hb.
    destruct (elim_pass_evolves st Hinv) as [_ (_ & _ & _ & [?|Hless])];
      [done|].
    destruct (run_evolves (elim_pass st) (Hidden <$> dict_keys st.2) Hinv')
      as [_ Hev%evolves_count].
    { apply Forall_fmap, Forall_forall. intros k Hk. simpl. by rewrite Hkeys. }
    rewrite Hb in Hev. lia. }
  assert (Hh : hidden_pass (elim_pass st) = elim_pass st).
  { unfold hidden_pass, for_keys. apply hidden_fold_stable; [done..|].
    fold (for_keys hidden_step (elim_pass st)).
    fold (hidden_pass (elim_pass st)). fold (round st). by rewrite Hb. }
  split; [done|]. unfold round at 2. rewrite Hh. unfold round.
  by rewrite (elim_pass_fixed st Hinv Hnd He), Hh.
Qed.

(** X5 (stopping at a stall loses nothing).  When the loop of a run on a
    9x9 board is left by its [break], the final state is a fixed point of
    both passes: any number of further turns would change neither the board
    nor the candidates of any key. *)
Theorem stall_is_final (b : board) fuel o :
  wf_board b → solve_loop fuel (init b) 0 = Some o →
  out_terminal o = Stalled →
  let final := (out_board o, out_unknowns o) in
  elim_pass final = final ∧ hidden_pass final = final ∧
  ∀ n, Nat.iter n round final = final.
Proof.
  intros Hwf Ho Hstall final.
  destruct (solve_loop_iter _ _ _ _ Ho) as (n & _ & Hst & Hterm).
  rewrite Hstall in Hterm. destruct Hterm as (m & -> & _ & Hb).
  destruct (iter_round_keys b m Hwf) as [Hinv Hnd].
  simpl in Hst. fold final in Hst.
  assert (Hsame : (round (Nat.iter m round (init b))).1
                  = (Nat.iter m round (init b)).1).
  { by rewrite <- Hst. }
  destruct (round_fixed _ Hinv Hnd Hsame) as [Hr1 Hr2].
  rewrite <- Hst in Hr1, Hr2.
  assert (He : elim_pass final = final).
  { rewrite Hr1. apply elim_pass_fixed; [done..|].
    rewrite <- Hr1. by rewrite Hst. }
  assert (Hh : hidden_pass final = final).
  { unfold round in Hr2. by rewrite He in Hr2. }
  split_and!; [done..|].
  intros k. induction k as [|k IH]; simpl; [done|]. by rewrite IH.
Qed.

Lemma stall_is_final_witness :
  let final := (out_board contradictory_outcome,
                out_unknowns contradictory_outcome) in
  elim_pass final = final ∧ hidden_pass final = final ∧
  ∀ n, Nat.iter n round final = final.
Proof.
  apply (stall_is_final contradictory_puzzle 81 contradictory_outcome).
  - split; [reflexivity|]. repeat (constructor; [reflexivity|]). constructor.
  - vm_compute. reflexivity.
  - reflexivity.
Defined.

(** X6 (idempotence of the elimination pass).  At any instant of a run on
    a 9x9 board, if the elimination pass leaves the board as it was, then
    running it once more changes nothing: neither the board nor any list of
    candidates. *)
Theorem elim_pass_idempotent (b : board) n t :
  wf_board b →
  let st := state_at b n t in
  (elim_pass st).1 = st.1 → elim_pass (elim_pass st) = elim_pass st.
Proof.
  intros Hwf st Hb. destruct (state_at_inv b n t Hwf) as [Hinv [Hkeys _]].
  fold st in Hinv, Hkeys. apply elim_pass_fixed; [done| |done].
  rewrite Hkeys. apply create_unknowns_dict_NoDup.
Qed.

Lemma elim_pass_idempotent_witness :
  let st := state_at contradictory_puzzle 2 18 in
  elim_pass (elim_pass st) = elim_pass st.
Proof.
  apply (elim_pass_idempotent contradictory_puzzle 2 18).
  - split; [reflexivity|]. repeat (constructor; [reflexivity|]). constructor.
  - vm_compute. reflexivity.
Defined.

(** ** Iterations against unknown cells *)

Lemma solve_loop_budget fuel st it o :
  inv st → solve_loop fuel st it = Some o →
  out_iterations o + count_unknown (out_board o)
  ≤ it + count_unknown st.1
    + match out_terminal o with Stalled => 1 | Complete => 0 end.
Proof.
  revert st it. induction fuel as [|fuel IH]; intros st it Hinv;
    rewrite solve_loop_unfold; destruct (has_unknown st.1) eqn:Hu; try done;
    try (intros [= <-]; simpl; lia).
  destruct (round_evolves st Hinv) as [Hinv' Hev].
  pose proof (evolves_count _ _ Hev) as Hle.
  destruct (array_equal st.1 (round st).1) eqn:Heq.
  - intros [= <-]. simpl. lia.
  - intros Ho%IH; [|done]. destruct Hev as (_ & _ & _ & [Hsame|Hless]); [|lia].
    apply bool_decide_eq_false in Heq. by destruct Heq.
Qed.

(** X7 (iterations against unknown cells).  On a 9x9 board the loop ends
    within as many turns as the input has unknown cells, and that number is
    enough as a bound.  The iteration count plus the number of cells still
    unknown at the end is at most the number of unknown cells of the input,
    plus one when the loop was left by its [break]: every turn but a
    stalling one resolves a cell.  The count is 0 exactly when the input
    has no unknown cell, and the board is then returned as it came. *)
Theorem iteration_budget (b : board) :
  wf_board b →
  ∃ o,
    (∀ fuel, count_unknown b ≤ fuel → solve_loop fuel (init b) 0 = Some o) ∧
    out_iterations o + count_unknown (out_board o)
    ≤ count_unknown b
      + match out_terminal o with Stalled => 1 | Complete => 0 end ∧
    out_iterations o ≤ count_unknown b ∧
    (out_iterations o = 0 ↔ has_unknown b = false) ∧
    (out_iterations o = 0 → out_board o = b ∧ out_terminal o = Complete).
Proof.
  intros Hwf. pose proof (inv_init b Hwf) as Hinv.
  destruct (solve_loop_terminates (count_unknown b) (init b) 0 Hinv)
    as (o & Ho & Hit); [done|].
  exists o. simpl in Hit.
  pose proof (solve_loop_budget _ _ _ _ Hinv Ho) as Hbudget.
  rewrite solve_loop_unfold in Ho. simpl in Ho, Hbudget.
  split_and!; [|done|done|..].
  - intros fuel Hfuel. eapply solve_loop_more_fuel; [|done].
    by rewrite solve_loop_unfold.
  - destruct (has_unknown b) eqn:Hu.
    + split; [|done]. intros H0. destruct (count_unknown b) as [|c] eqn:Hc.
      { apply has_unknown_count in Hu. lia. }
      destruct (array_equal _ _).
      * injection Ho as <-. simpl in H0. lia.
      * apply solve_loop_iter in Ho as (n & Hn & _). lia.
    + injection Ho as <-. done.
  - intros H0. destruct (has_unknown b) eqn:Hu.
    + destruct (count_unknown b) as [|c] eqn:Hc; [done|].
      destruct (array_equal _ _).
      * injection Ho as <-. simpl in H0. lia.
      * apply solve_loop_iter in Ho as (n & Hn & _). lia.
    + injection Ho as <-. done.
Qed.

Lemma iteration_budget_witness :
  ∃ o,
    (∀ fuel, count_unknown example_puzzle ≤ fuel →
             solve_loop fuel (init example_puzzle) 0 = Some o) ∧
    out_iterations o + count_unknown (out_board o)
    ≤ count_unknown example_puzzle
      + match out_terminal o with Stalled => 1 | Complete => 0 end ∧
    out_iterations o ≤ count_unknown example_puzzle ∧
    (out_iterations o = 0 ↔ has_unknown example_puzzle = false) ∧
    (out_iterations o = 0 →
     out_board o = example_puzzle ∧ out_terminal o = Complete).
Proof.
  apply (iteration_budget example_puzzle).
  split; [reflexivity|]. repeat (constructor; [reflexivity|]). constructor.
Defined.

(** ** What is written on the board *)

(** X8 (only digits are written, only on unknown cells).  At every instant
    of a run on a 9x9 board the board is still 9x9, and each of its cells
    holds what the input holds there, or one of the symbols ["1"] to ["9"]
    where the input holds ["X"]; so does the board the loop ends with. *)
Theorem only_digits_written (b : board) :
  wf_board b →
  (∀ n t, let b' := (state_at b n t).1 in
     wf_board b' ∧
     ∀ i j, i < 9 → j < 9 →
       board_get b' i j = board_get b i j
       ∨ (board_get b i j = "X" ∧ board_get b' i j ∈ all_values)) ∧
  (∀ fuel o, solve_loop fuel (init b) 0 = Some o →
     wf_board (out_board o) ∧
     ∀ i j, i < 9 → j < 9 →
       board_get (out_board o) i j = board_get b i j
       ∨ (board_get b i j = "X" ∧ board_get (out_board o) i j ∈ all_values)).
Proof.
  intros Hwf.
  assert (Hall : ∀ n t, let b' := (state_at b n t).1 in
     wf_board b' ∧
     ∀ i j, i < 9 → j < 9 →
       board_get b' i j = board_get b i j
       ∨ (board_get b i j = "X" ∧ board_get b' i j ∈ all_values)).
  { intros n t b'. subst b'.
    destruct (state_at_inv b n t Hwf) as [[Hwf' Hc] (Hkeys & Hmono & _)].
    split; [done|]. intros i j Hi Hj.
    destruct (decide (board_get b i j = "X")) as [HX|HX];
      [|left; by apply Hmono].
    assert (Hk : (i, j) ∈ dict_keys (state_at b n t).2).
    { rewrite Hkeys. simpl. apply list_elem_of_fmap.
      exists ((i, j), all_values). split; [done|].
      by apply create_unknowns_dict_elem. }
    apply dict_get_keys in Hk as [cs Hcs].
    destruct (Hc _ _ Hcs) as (_ & _ & _ & Hin & _). simpl in Hin.
    apply elem_of_cons in Hin as [Hin|Hin]; [left; congruence|by right]. }
  split; [done|]. intros fuel o Ho.
  pose proof (solve_loop_state_at b fuel o Hwf Ho _ (Nat.le_refl _)) as Hst.
  specialize (Hall (out_iterations o)
    (length (schedule (dict_keys (create_unknowns_dict b)) (out_iterations o)))).
  by rewrite Hst in Hall.
Qed.

Lemma only_digits_written_witness :
  (∀ n t, let b' := (state_at example_puzzle n t).1 in
     wf_board b' ∧
     ∀ i j, i < 9 → j < 9 →
       board_get b' i j = board_get example_puzzle i j
       ∨ (board_get example_puzzle i j = "X"
          ∧ board_get b' i j ∈ all_values)) ∧
  (∀ fuel o, solve_loop fuel (init example_puzzle) 0 = Some o →
     wf_board (out_board o) ∧
     ∀ i j, i < 9 → j < 9 →
       board_get (out_board o) i j = board_get example_puzzle i j
       ∨ (board_get example_puzzle i j = "X"
          ∧ board_get (out_board o) i j ∈ all_values)).
Proof.
  apply (only_digits_written example_puzzle).
  split; [reflexivity|]. repeat (constructor; [reflexivity|]). constructor.
Defined.

(** ** The dictionary of a board and the three scans *)

Lemma bind_if_filter {A B} (P : A → Prop) `{!∀ x, Decision (P x)}
    (f : A → B) (l : list A) :
  (x ← l; if decide (P x) then [f x] else []) = f <$> filter P l.
Proof.
  induction l as [|x l IH]; [done|]. rewrite bind_cons, IH.
  rewrite filter_cons. by destruct (decide (P x)).
Qed.

Lemma bind2_if_filter {B} (P : nat * nat → Prop) `{!∀ x, Decision (P x)}
    (f : nat * nat → B) (l1 l2 : list nat) :
  (i ← l1; j ← l2; if decide (P (i, j)) then [f (i, j)] else [])
  = f <$> filter P (i ← l1; j ← l2; [(i, j)]).
Proof.
  induction l1 as [|i l1 IH]; [done|]. rewrite !bind_cons.
  rewrite IH, filter_app, fmap_app. f_equal. clear IH.
  induction l2 as [|j l2 IH2]; [done|]. rewrite !bind_cons, IH2.
  cbn [app]. rewrite filter_cons. by destruct (decide (P (i, j))).
Qed.

Lemma length_filter_fmap {A B} (P : B → Prop) `{!∀ x, Decision (P x)}
    (f : A → B) (l : list A) :
  length (filter P (f <$> l)) = length (filter (λ x, P (f x)) l).
Proof.
  induction l as [|x l IH]; [done|]. rewrite fmap_cons, !filter_cons.
  destruct (decide (P (f x))); simpl; by rewrite IH.
Qed.

Lemma filter_fmap {A B} (P : B → Prop) `{!∀ x, Decision (P x)}
    (f : A → B) (l : list A) :
  filter P (f <$> l) = f <$> filter (λ x, P (f x)) l.
Proof.
  induction l as [|x l IH]; [done|]. rewrite fmap_cons, !filter_cons.
  destruct (decide (P (f x))); simpl; by rewrite IH.
Qed.

(** X9 (the dictionary of a board).  [create_unknowns_dict] lists the
    cells of a 9x9 board that hold ["X"] in reading order (row by row, left
    to right), each once and each with the nine candidates ["1"] to ["9"]
    in this order; it has as many keys as the board has unknown cells, and
    any other key reads as the empty list. *)
Theorem create_unknowns_dict_spec (b : board) :
  wf_board b →
  let unknown := λ k : key, board_get b k.1 k.2 = "X" in
  create_unknowns_dict b = (λ k, (k, all_values)) <$> filter unknown all_cells ∧
  dict_keys (create_unknowns_dict b) = filter unknown all_cells ∧
  NoDup (dict_keys (create_unknowns_dict b)) ∧
  length (create_unknowns_dict b) = count_unknown b ∧
  ∀ k, dict_item (create_unknowns_dict b) k
       = if decide (in_grid k ∧ unknown k) then all_values else [].
Proof.
  intros Hwf unknown.
  assert (Heq : create_unknowns_dict b
                = (λ k, (k, all_values)) <$> filter unknown all_cells).
  { unfold create_unknowns_dict, all_cells.
    by rewrite <- (bind2_if_filter unknown (λ k, (k, all_values))). }
  assert (Hkeys : dict_keys (create_unknowns_dict b) = filter unknown all_cells).
  { unfold dict_keys. rewrite Heq, <- list_fmap_compose.
    apply list_fmap_id. }
  split_and!; [done|done|apply create_unknowns_dict_NoDup| |].
  - rewrite Heq, length_fmap. unfold count_unknown.
    rewrite (wf_concat b Hwf). unfold values_at.
    by rewrite length_filter_fmap.
  - intros k. unfold dict_item.
    destruct (dict_get (create_unknowns_dict b) k) as [cs|] eqn:Hget; simpl.
    + apply dict_get_elem_of, create_unknowns_dict_elem in Hget
        as (Hi & Hj & HX & ->).
      by rewrite decide_True.
    + rewrite decide_False; [done|]. intros [[Hi Hj] HX].
      assert (Hk : k ∈ dict_keys (create_unknowns_dict b)).
      { apply list_elem_of_fmap. exists (k, all_values). split; [done|].
        by apply create_unknowns_dict_elem. }
      apply dict_get_keys in Hk as [cs Hcs]. congruence.
Qed.

Lemma create_unknowns_dict_spec_witness :
  let unknown := λ k : key, board_get example_puzzle k.1 k.2 = "X" in
  create_unknowns_dict example_puzzle
  = (λ k, (k, all_values)) <$> filter unknown all_cells ∧
  dict_keys (create_unknowns_dict example_puzzle) = filter unknown all_cells ∧
  NoDup (dict_keys (create_unknowns_dict example_puzzle)) ∧
  length (create_unknowns_dict example_puzzle) = count_unknown example_puzzle ∧
  ∀ k, dict_item (create_unknowns_dict example_puzzle) k
       = if decide (in_grid k ∧ unknown k) then all_values else [].
Proof.
  apply (create_unknowns_dict_spec example_puzzle).
  split; [reflexivity|]. repeat (constructor; [reflexivity|]). constructor.
Defined.

Lemma wf_row_values (b : board) X :
  wf_board b → X < 9 → b !!! X = values_at b (row_cells X).
Proof.
  intros Hwf HX. destruct_board Hwf b.
  do 9 (destruct X as [|X]; [reflexivity|]). lia.
Qed.

Lemma wf_column_values (b : board) Y :
  wf_board b → Y < 9 →
  (λ row : list cell, row !!! Y) <$> b = values_at b (column_cells Y).
Proof.
  intros Hwf HY. destruct_board Hwf b.
  do 9 (destruct Y as [|Y]; [reflexivity|]). lia.
Qed.

(** X10 (the three scans).  For a cell (X, Y) of a 9x9 board, [get_row],
    [get_column] and [get_square] return the symbols other than ["X"] of
    the row X, of the column Y and of the 3x3 box of the cell, in reading
    order and with their repetitions; each has at most nine elements, and
    [get_square] gives the same list for every cell of a box. *)
Theorem scans_spec (b : board) X Y :
  wf_board b → X < 9 → Y < 9 →
  let known := λ x : cell, x ≠ "X" in
  get_row b X = filter known (values_at b (row_cells X)) ∧
  get_column b Y = filter known (values_at b (column_cells Y)) ∧
  get_square b X Y = filter known (values_at b (box_cells (X / 3) (Y / 3))) ∧
  length (get_row b X) ≤ 9 ∧ length (get_column b Y) ≤ 9 ∧
  length (get_square b X Y) ≤ 9 ∧
  ∀ X' Y', X' / 3 = X / 3 → Y' / 3 = Y / 3 →
           get_square b X' Y' = get_square b X Y.
Proof.
  intros Hwf HX HY known.
  assert (Hrow : get_row b X = filter known (values_at b (row_cells X))).
  { unfold get_row. by rewrite wf_row_values. }
  assert (Hcol : get_column b Y = filter known (values_at b (column_cells Y))).
  { unfold get_column. by rewrite wf_column_values. }
  assert (Hsq : ∀ X Y, get_square b X Y
                = filter known (values_at b (box_cells (X / 3) (Y / 3)))).
  { intros X0 Y0. unfold get_square, box_cells, values_at.
    rewrite filter_fmap.
    by rewrite <- (bind2_if_filter (λ k, known (board_get b k.1 k.2))
                    (λ k, board_get b k.1 k.2)). }
  split_and!; [done|done|done|..].
  - rewrite Hrow. etrans; [apply length_filter|].
    unfold values_at, row_cells. by rewrite !length_fmap, length_seq.
  - rewrite Hcol. etrans; [apply length_filter|].
    unfold values_at, column_cells. by rewrite !length_fmap, length_seq.
  - rewrite Hsq. etrans; [apply length_filter|].
    unfold values_at. rewrite length_fmap.
    assert (X / 3 < 3) by (apply Nat.Div0.div_lt_upper_bound; lia).
    assert (Y / 3 < 3) by (apply Nat.Div0.div_lt_upper_bound; lia).
    destruct (X / 3) as [|[|[|?]]]; [| | |lia];
      (destruct (Y / 3) as [|[|[|?]]]; [| | |lia]); vm_compute; lia.
  - intros X' Y' HX' HY'. by rewrite !Hsq, HX', HY'.
Qed.

Lemma scans_spec_witness :
  let known := λ x : cell, x ≠ "X" in
  get_row example_puzzle 4 = filter known (values_at example_puzzle (row_cells 4)) ∧
  get_column example_puzzle 7
  = filter known (values_at example_puzzle (column_cells 7)) ∧
  get_square example_puzzle 4 7
  = filter known (values_at example_puzzle (box_cells (4 / 3) (7 / 3))) ∧
  length (get_row example_puzzle 4) ≤ 9 ∧
  length (get_column example_puzzle 7) ≤ 9 ∧
  length (get_square example_puzzle 4 7) ≤ 9 ∧
  ∀ X' Y', X' / 3 = 4 / 3 → Y' / 3 = 7 / 3 →
           get_square example_puzzle X' Y' = get_square example_puzzle 4 7.
Proof.
  apply (scans_spec example_puzzle 4 7); [|lia|lia].
  split; [reflexivity|]. repeat (constructor; [reflexivity|]). constructor.
Defined.

(** ** [remove_impossible_values] *)

Lemma filter_sublist_impl {A} (P Q : A → Prop)
    `{!∀ x, Decision (P x)} `{!∀ x, Decision (Q x)} (l : list A) :
  (∀ x, P x → Q x) → filter P l `sublist_of` filter Q l.
Proof.
  intros HPQ. induction l as [|x l IH]; [done|]. rewrite !filter_cons.
  destruct (decide (P x)) as [HP|HP].
  - rewrite decide_True by auto. by apply sublist_skip.
  - destruct (decide (Q x)); [by apply sublist_cons|done].
Qed.

Lemma impossible_values_mono (b b' : board) X Y x :
  wf_board b → wf_board b' → X < 9 → Y < 9 →
  (∀ i j, board_get b i j ≠ "X" → board_get b' i j = board_get b i j) →
  x ∈ impossible_values b X Y → x ∈ impossible_values b' X Y.
Proof.
  intros Hwf Hwf' HX HY Hmono. unfold impossible_values.
  rewrite !elem_of_app, !elem_of_get_row, !elem_of_get_column,
    !elem_of_get_square by done.
  intros [(Hx & j & Hj & Hb)|[(Hx & i & Hi & Hb)|(Hx & i & j & Hi & Hj & Hb)]].
  - left. split; [done|]. exists j. split; [done|].
    rewrite Hmono; congruence.
  - right. left. split; [done|]. exists i. split; [done|].
    rewrite Hmono; congruence.
  - right. right. split; [done|]. exists i, j. split_and!; [done..|].
    rewrite Hmono; congruence.
Qed.



(** ** [check_only_possible_location] *)

Lemma spec_forced_mono (u u' : unknowns) k v :
  dict_keys u' = dict_keys u →
  (∀ k', k' ≠ k → dict_item u' k' ⊆ dict_item u k') →
  spec_forced u k v → spec_forced u' k v.
Proof.
  intros Hkeys Hsub.
  assert (Habs : ∀ G, spec_absent G u k v → spec_absent G u' k v).
  { intros G Habs k' Hk' Hne HG Hin. rewrite Hkeys in Hk'.
    apply (Habs k' Hk' Hne HG). by apply Hsub. }
  intros [?|[?|?]]; [left|right; left|right; right]; by apply Habs.
Qed.

(** X12 (the test of the second pass).  On a dictionary (its keys are
    distinct), [check_only_possible_location key value] depends only on the
    candidates of the other keys: it stays true when other keys lose
    candidates, it does not change when the candidates of [key] itself are
    replaced, and it is true for every value when no other key lies in the
    row of [key], or none in its column, or none in its box. *)
Theorem check_only_possible_location_others (u : unknowns) k v :
  NoDup (dict_keys u) →
  (∀ u', dict_keys u' = dict_keys u →
         (∀ k', k' ≠ k → dict_item u' k' ⊆ dict_item u k') →
         check_only_possible_location k v u = true →
         check_only_possible_location k v u' = true) ∧
  (∀ cs, k ∈ dict_keys u →
         check_only_possible_location k v (dict_set u k cs)
         = check_only_possible_location k v u) ∧
  ((∀ k', k' ∈ dict_keys u → k' ≠ k → ¬ same_row k k')
   ∨ (∀ k', k' ∈ dict_keys u → k' ≠ k → ¬ same_column k k')
   ∨ (∀ k', k' ∈ dict_keys u → k' ≠ k → ¬ same_box k k') →
   check_only_possible_location k v u = true).
Proof.
  intros Hnd. split_and!.
  - intros u' Hkeys Hsub Hu.
    apply check_only_possible_location_spec; [by rewrite Hkeys|].
    apply check_only_possible_location_spec in Hu; [|done].
    by apply (spec_forced_mono u u').
  - intros cs Hk. apply eq_true_iff_eq.
    rewrite !check_only_possible_location_spec;
      [|done|by rewrite dict_keys_set].
    split; apply spec_forced_mono;
      rewrite ?dict_keys_set by done; try done;
      intros k' Hne; by rewrite dict_item_set_ne.
  - intros Hlone. apply check_only_possible_location_spec; [done|].
    destruct Hlone as [H|[H|H]]; [left|right; left|right; right];
      intros k' Hk' Hne HG; by destruct (H k' Hk' Hne).
Qed.

Lemma check_only_possible_location_others_witness :
  let u := create_unknowns_dict last_row_puzzle in
  (∀ u', dict_keys u' = dict_keys u →
         (∀ k', k' ≠ (0, 8) → dict_item u' k' ⊆ dict_item u k') →
         check_only_possible_location (0, 8) "1" u = true →
         check_only_possible_location (0, 8) "1" u' = true) ∧
  (∀ cs, (0, 8) ∈ dict_keys u →
         check_only_possible_location (0, 8) "1" (dict_set u (0, 8) cs)
         = check_only_possible_location (0, 8) "1" u) ∧
  ((∀ k', k' ∈ dict_keys u → k' ≠ (0, 8) → ¬ same_row (0, 8) k')
   ∨ (∀ k', k' ∈ dict_keys u → k' ≠ (0, 8) → ¬ same_column (0, 8) k')
   ∨ (∀ k', k' ∈ dict_keys u → k' ≠ (0, 8) → ¬ same_box (0, 8) k') →
   check_only_possible_location (0, 8) "1" u = true).
Proof.
  apply (check_only_possible_location_others
           (create_unknowns_dict last_row_puzzle) (0, 8) "1").
  apply (bool_decide_unpack _). vm_compute. exact I.
Defined.

(** ** The first pass fills a lone gap *)

Lemma elim_steps_sound S st ks :
  solution S → sound_state S st → ks ⊆ dict_keys st.2 →
  sound_state S (foldl elim_step st ks).
Proof.
  intros HS. revert st. induction ks as [|k ks IH]; intros st Hst Hks; [done|].
  simpl. assert (Hk : k ∈ dict_keys st.2) by (apply Hks; left).
  apply IH; [by apply elim_step_sound|].
  rewrite (effect_keys k st _ Hk (elim_step_effect st k)).
  intros x Hx. apply Hks. by right.
Qed.

Lemma singleton_list {A} (l : list A) x :
  NoDup l → x ∈ l → (∀ y, y ∈ l → y = x) → l = [x].
Proof.
  intros Hnd Hx Hall. destruct l as [|a [|a' l]].
  - inversion Hx.
  - f_equal. apply Hall. left.
  - rewrite (Hall a), (Hall a') in Hnd; [|right; left|left].
    apply NoDup_cons in Hnd as [Hnot _]. destruct Hnot. left.
Qed.



(** ** [pretty_print_board] *)

Lemma row_text_layout (row : list cell) :
  length row = 9 → Forall (λ c, String.length c = 1) row →
  String.length (row_text row) = String.length separator ∧
  String.get 6 (row_text row) = Some "|"%char ∧
  String.get 14 (row_text row) = Some "|"%char ∧
  ∀ j, j < 9 →
       String.get (2 * j + 2 * (j / 3)) (row_text row)
       = String.get 0 (row !!! j).
Proof.
  intros Hlen Hone.
  do 10 (destruct row as [|? row]; try discriminate Hlen).
  repeat match goal with
         | H : Forall _ (_ :: _) |- _ => apply Forall_cons in H as [? H]
         end.
  repeat match goal with
         | H : String.length ?s = 1 |- _ =>
             destruct s as [|? [|? ?]]; try discriminate H; clear H
         end.
  split_and!; [reflexivity..|].
  intros j Hj. do 9 (destruct j as [|j]; [reflexivity|]). lia.
Qed.

(** X14 (layout of the printed board).  For a 9x9 board
    [pretty_print_board] prints eleven lines: the nine rows in order, with
    the separator line before the rows 3 and 6 and nowhere else.  When
    every cell is a single character, every row line is as long as the
    separator, has its two bars under the two [+] of the separator, and
    shows the cell of column j at position 2j + 2(j // 3). *)
Theorem pretty_print_board_layout (b : board) :
  wf_board b →
  pretty_print_board b
  = [row_text (b !!! 0); row_text (b !!! 1); row_text (b !!! 2); separator;
     row_text (b !!! 3); row_text (b !!! 4); row_text (b !!! 5); separator;
     row_text (b !!! 6); row_text (b !!! 7); row_text (b !!! 8)] ∧
  String.get 6 separator = Some "+"%char ∧
  String.get 14 separator = Some "+"%char ∧
  (Forall (Forall (λ c, String.length c = 1)) b →
   ∀ i, i < 9 →
     let line := row_text (b !!! i) in
     String.length line = String.length separator ∧
     String.get 6 line = Some "|"%char ∧
     String.get 14 line = Some "|"%char ∧
     ∀ j, j < 9 →
          String.get (2 * j + 2 * (j / 3)) line
          = String.get 0 (board_get b i j)).
Proof.
  intros Hwf. split_and!; [|done|done|].
  - destruct Hwf as [Hlen _].
    do 10 (destruct b as [|? b]; try discriminate Hlen). reflexivity.
  - intros Hone i Hi line. subst line.
    destruct (wf_board_row b i Hwf Hi) as (row & Hrow & Hlen).
    unfold board_get. rewrite (list_lookup_total_correct _ _ _ Hrow).
    apply row_text_layout; [done|].
    rewrite Forall_forall in Hone. apply Hone.
    by eapply list_elem_of_lookup_2.
Qed.

Lemma pretty_print_board_layout_witness :
  pretty_print_board example_puzzle
  = [row_text (example_puzzle !!! 0); row_text (example_puzzle !!! 1);
     row_text (example_puzzle !!! 2); separator;
     row_text (example_puzzle !!! 3); row_text (example_puzzle !!! 4);
     row_text (example_puzzle !!! 5); separator;
     row_text (example_puzzle !!! 6); row_text (example_puzzle !!! 7);
     row_text (example_puzzle !!! 8)] ∧
  String.get 6 separator = Some "+"%char ∧
  String.get 14 separator = Some "+"%char ∧
  (Forall (Forall (λ c, String.length c = 1)) example_puzzle →
   ∀ i, i < 9 →
     let line := row_text (example_puzzle !!! i) in
     String.length line = String.length separator ∧
     String.get 6 line = Some "|"%char ∧
     String.get 14 line = Some "|"%char ∧
     ∀ j, j < 9 →
          String.get (2 * j + 2 * (j / 3)) line
          = String.get 0 (board_get example_puzzle i j)).
Proof.
  apply (pretty_print_board_layout example_puzzle).
  split; [reflexivity|]. repeat (constructor; [reflexivity|]). constructor.
Defined.

Lemma append_space_inj (x x' r r' : string) :
  has_space x = false → has_space x' = false →
  (x +:+ String " " r = x' +:+ String " " r') → x = x' ∧ r = r'.
Proof.
  revert x'. induction x as [|a x IH]; intros [|a' x'] Hx Hx' Heq;
    simpl in *.
  - by injection Heq as ->.
  - injection Heq as <- _. by rewrite decide_True in Hx'.
  - injection Heq as -> _. by rewrite decide_True in Hx.
  - injection Heq as <- Heq.
    destruct (decide (a = " "%char)); [done|].
    destruct (IH x' Hx Hx' Heq) as [-> ->]. done.
Qed.

Lemma concat_space_inj (l l' : list string) :
  length l = length l' →
  Forall (λ s, has_space s = false) l →
  Forall (λ s, has_space s = false) l' →
  String.concat " " l = String.concat " " l' → l = l'.
Proof.
  revert l'. induction l as [|x l IH]; intros [|x' l'] Hlen Hl Hl' Heq;
    try done.
  apply Forall_cons in Hl as [Hx Hl]. apply Forall_cons in Hl' as [Hx' Hl'].
  destruct l as [|y l], l' as [|y' l']; try done.
  - simpl in Heq. by subst.
  - change (x +:+ String " " (String.concat " " (y :: l))
            = x' +:+ String " " (String.concat " " (y' :: l'))) in Heq.
    destruct (append_space_inj _ _ _ _ Hx Hx' Heq) as [-> Htl].
    f_equal. apply IH; [|done..]. simpl in Hlen |- *. lia.
Qed.

Lemma row_text_inj (row row' : list cell) :
  length row = 9 → length row' = 9 →
  Forall (λ s, has_space s = false) row →
  Forall (λ s, has_space s = false) row' →
  row_text row = row_text row' → row = row'.
Proof.
  intros Hlen Hlen' Hs Hs' Heq.
  do 10 (destruct row as [|? row]; try discriminate Hlen).
  do 10 (destruct row' as [|? row']; try discriminate Hlen').
  apply concat_space_inj in Heq.
  - cbn [take drop app] in Heq. by simplify_eq.
  - reflexivity.
  - cbn [take drop app].
    repeat match goal with
           | H : Forall _ (_ :: _) |- _ => apply Forall_cons in H as [? H]
           end.
    repeat (constructor; [done|]). constructor.
  - cbn [take drop app].
    repeat match goal with
           | H : Forall _ (_ :: _) |- _ => apply Forall_cons in H as [? H]
           end.
    repeat (constructor; [done|]). constructor.
Qed.

Lemma print_rows_inj count (b b' : board) :
  length b = length b' →
  Forall (λ row, length row = 9 ∧ Forall (λ s, has_space s = false) row) b →
  Forall (λ row, length row = 9 ∧ Forall (λ s, has_space s = false) row) b' →
  print_rows count b = print_rows count b' → b = b'.
Proof.
  revert count b'. induction b as [|r b IH]; intros count [|r' b'] Hlen Hb Hb';
    try done.
  apply Forall_cons in Hb as [[Hr Hs] Hb].
  apply Forall_cons in Hb' as [[Hr' Hs'] Hb'].
  simpl. intros Heq. apply app_inv_head in Heq. injection Heq as Hrow Hrest.
  f_equal; [by apply row_text_inj|].
  apply (IH (S count)); [|done..]. simpl in Hlen. lia.
Qed.



(** ** Exceptions that escape *)

Lemma res_map_Raise {A B} (f : A → res B) (l : list A) e :
  res_map f l = Raise e → ∃ x, x ∈ l ∧ f x = Raise e.
Proof.
  induction l as [|x l IH]; simpl; [done|].
  unfold mbind, res_bind. destruct (f x) as [y|e'] eqn:Hfx.
  - destruct (res_map f l) as [ys|e'']; [done|].
    intros [= ->]. destruct IH as (x' & Hx' & Hf); [done|].
    exists x'. split; [by right|done].
  - intros [= ->]. exists x. split; [left|done].
Qed.

Lemma astype_int_Raise (b : board) e :
  astype_int b = Raise e →
  e ≠ AssertionError ∧ ∃ c, c ∈ concat b ∧ ¬ convertible c.
Proof.
  intros (row & Hrow & (c & Hc & Hraise)%res_map_Raise)%res_map_Raise.
  assert (Hin : c ∈ concat b) by (apply elem_of_concat; eauto).
  unfold to_int64 in Hraise. unfold convertible.
  destruct (py_int c) as [z|] eqn:Hpy.
  - case_bool_decide; [done|]. injection Hraise as <-. split; [done|].
    exists c. split; [done|]. by rewrite Hpy.
  - injection Hraise as <-. split; [done|].
    exists c. split; [done|]. rewrite Hpy. tauto.
Qed.

Lemma check_solution_escape (b : board) :
  wf_board b →
  (∃ e, e ≠ AssertionError ∧ check_solution b = Raise e) ↔
  (∀ g, g ∈ all_groups → distinct_on b g) ∧ has_unknown b = false ∧
  ∃ c, c ∈ concat b ∧ ¬ convertible c.
Proof.
  intros Hwf. rewrite <- (groups_checked b Hwf).
  unfold check_solution, mbind, res_bind, assert, has_unknown.
  destruct (forallb _ b);
    [|split; [by intros (e & He & [= <-])|by intros [(? & _) _]]].
  destruct (forallb _ (columns b));
    [|split; [by intros (e & He & [= <-])|by intros [(_ & ? & _) _]]].
  destruct (forallb _ (blocks b));
    [|split; [by intros (e & He & [= <-])|by intros [(_ & _ & ?) _]]].
  destruct (forallb (λ x, bool_decide (x ≠ "X")) (concat b)) eqn:Hx.
  - apply forallb_bool_decide in Hx.
    assert (HX : bool_decide ("X" ∈ concat b) = false).
    { apply bool_decide_eq_false. intros Hin.
      rewrite Forall_forall in Hx. by apply (Hx "X"). }
    destruct (astype_int b) as [m|e] eqn:Hm.
    + split.
      * intros (e & He & Hraise).
        destruct (forallb _ _ && forallb _ _); simpl in Hraise;
          [case_bool_decide|]; congruence.
      * intros (_ & _ & c & Hc & Hconv). destruct Hconv.
        apply astype_int_Ret in Hm as [_ Hall].
        rewrite Forall_forall in Hall. by apply to_int64_value, Hall.
    + destruct (astype_int_Raise b e Hm) as [He Hc]. split; [done|].
      intros _. by exists e.
  - split; [by intros (e & He & [= <-])|].
    intros (_ & HX & _). apply bool_decide_eq_false in HX.
    assert (Hall : Forall (λ x : cell, x ≠ "X") (concat b)).
    { apply Forall_forall. intros x Hin ->. done. }
    apply (proj2 (forallb_bool_decide _ _)) in Hall. simpl in Hall.
    rewrite Hx in Hall. discriminate Hall.
Qed.

(** X16 (exceptions that escape).  [solve_board] catches the
    [AssertionError] of the verifier and nothing else.  A run on a 9x9
    board ends with an exception exactly when the final board has no
    unknown cell, has nine distinct tokens in each of the 27 groups, and
    holds a token that [astype(int)] does not convert; the exception is the
    one of the conversion, and the token is a clue of the input, since the
    solver writes digits only. *)
Theorem escaping_exception (b : board) fuel o :
  wf_board b → solve_loop fuel (init b) 0 = Some o →
  (∀ e, solve_board fuel b = Some (Raise e) →
        e ≠ AssertionError ∧ check_solution (out_board o) = Raise e) ∧
  ((∃ e, solve_board fuel b = Some (Raise e)) ↔
   (∀ g, g ∈ all_groups → distinct_on (out_board o) g) ∧
   has_unknown (out_board o) = false ∧
   ∃ k, in_grid k ∧ board_get b k.1 k.2 ≠ "X" ∧
        board_get (out_board o) k.1 k.2 = board_get b k.1 k.2 ∧
        ¬ convertible (board_get b k.1 k.2)).
Proof.
  intros Hwf Ho.
  destruct (solve_loop_iter _ _ _ _ Ho) as (n & _ & Hst & _).
  destruct (iter_round_evolves (init b) n (inv_init b Hwf)) as [Hinv Hev].
  rewrite <- Hst in Hinv, Hev.
  destruct Hinv as [Hwf' Hc]. destruct Hev as (Hkeys & Hmono & _).
  simpl in Hwf', Hc, Hkeys, Hmono.
  assert (Hrep : ∀ e, solve_board fuel b = Some (Raise e) ↔
                      e ≠ AssertionError ∧ check_solution (out_board o) = Raise e).
  { intros e. unfold solve_board. rewrite Ho. simpl. unfold report.
    destruct (check_solution (out_board o)) as [[]|[]]; split;
      try (by intros [= <-]); try (by intros [? [= <-]]); try done.
    all: by intros [? ?]. }
  split; [intros e; apply Hrep|].
  transitivity (∃ e, e ≠ AssertionError ∧ check_solution (out_board o) = Raise e).
  { split; intros [e He]; exists e; by apply Hrep. }
  rewrite (check_solution_escape _ Hwf').
  split; intros (Hg & Hu & Hex); (split; [done|split; [done|]]).
  - destruct Hex as (c & Hin & Hconv).
    rewrite (wf_concat _ Hwf') in Hin. unfold values_at in Hin.
    apply list_elem_of_fmap in Hin as (k & -> & Hk).
    exists k. apply elem_of_all_cells in Hk as Hgrid. split; [done|].
    destruct (decide (board_get b k.1 k.2 = "X")) as [HX|HX].
    + destruct Hconv.
      assert (Hkey : k ∈ dict_keys (out_unknowns o)).
      { rewrite Hkeys. apply list_elem_of_fmap.
        exists (k, all_values). split; [done|].
        apply create_unknowns_dict_elem. by destruct Hgrid. }
      apply dict_get_keys in Hkey as [cs Hcs].
      destruct (Hc _ _ Hcs) as (_ & _ & _ & Hin & _).
      apply elem_of_cons in Hin as [Hin|Hin];
        [|by apply all_values_convertible].
      apply bool_decide_eq_false in Hu. destruct Hu.
      rewrite (wf_concat _ Hwf'). apply list_elem_of_fmap. by exists k.
    + rewrite (Hmono _ _ HX) in Hconv |- *. done.
  - destruct Hex as (k & Hgrid & HX & Heq & Hconv).
    exists (board_get b k.1 k.2). split; [|done].
    rewrite (wf_concat _ Hwf'). apply list_elem_of_fmap.
    exists k. split; [done|]. by apply elem_of_all_cells.
Qed.

Lemma escaping_exception_witness :
  let o := Outcome Complete lettered_solution [] 0 in
  (∀ e, solve_board 0 lettered_solution = Some (Raise e) →
        e ≠ AssertionError ∧ check_solution (out_board o) = Raise e) ∧
  ((∃ e, solve_board 0 lettered_solution = Some (Raise e)) ↔
   (∀ g, g ∈ all_groups → distinct_on (out_board o) g) ∧
   has_unknown (out_board o) = false ∧
   ∃ k, in_grid k ∧ board_get lettered_solution k.1 k.2 ≠ "X" ∧
        board_get (out_board o) k.1 k.2 = board_get lettered_solution k.1 k.2 ∧
        ¬ convertible (board_get lettered_solution k.1 k.2)).
Proof.
  apply (escaping_exception lettered_solution 0
           (Outcome Complete lettered_solution [] 0)).
  - split; [reflexivity|]. repeat (constructor; [reflexivity|]). constructor.
  - vm_compute. reflexivity.
Defined.
